(** * Tic-tac-toe with exhaustive minimax: a shallow embedding of
    [zero_x_game.py] and the properties of its core.

    The Python program keeps the board as a list of three lists of
    integers ([0] empty, [-1] human, [+1] computer) and mutates it in
    place.  Here the board is a [list (list Z)] that is threaded
    explicitly through every function that writes to it; subscripting is
    fallible, exactly as Python's [IndexError]. *)

From Stdlib Require Import ZArith List Bool Lia String Ascii.
From stdpp Require Import base list sorting.
Import ListNotations.
Local Open Scope Z_scope.

(** ** Outcomes of a call *)

(** A call either returns a value, raises [IndexError] (the only exception
    the core can raise, from a subscript out of range), or exhausts the
    recursion budget of the model. *)
Inductive outcome (A : Type) : Type :=
| Ret (a : A)
| IndexError
| OutOfFuel.
Arguments Ret {A} a.
Arguments IndexError {A}.
Arguments OutOfFuel {A}.

Definition bind {A B : Type} (m : outcome A) (k : A -> outcome B) : outcome B :=
  match m with
  | Ret a => k a
  | IndexError => IndexError
  | OutOfFuel => OutOfFuel
  end.

Declare Scope outcome_scope.
Delimit Scope outcome_scope with outcome.
Notation "x <- m ;; k" := (bind m (fun x => k))
  (at level 100, m at next level, right associativity) : outcome_scope.
Local Open Scope outcome_scope.

Fixpoint mapM {A B : Type} (f : A -> outcome B) (l : list A) : outcome (list B) :=
  match l with
  | [] => Ret []
  | a :: l' => b <- f a ;; bs <- mapM f l' ;; Ret (b :: bs)
  end.

(** ** Python subscripting *)

(** [l[i]]: indices [0 .. len-1] count from the front, [-len .. -1] from the
    back, anything else raises. *)
Definition py_index {A : Type} (l : list A) (i : Z) : outcome nat :=
  let n := Z.of_nat (length l) in
  if (0 <=? i) && (i <? n) then Ret (Z.to_nat i)
  else if (- n <=? i) && (i <? 0) then Ret (Z.to_nat (n + i))
  else IndexError.

Definition getitem {A : Type} (l : list A) (i : Z) : outcome A :=
  k <- py_index l i ;;
  match l !! k with
  | Some a => Ret a
  | None => IndexError
  end.

Definition setitem {A : Type} (l : list A) (i : Z) (v : A) : outcome (list A) :=
  k <- py_index l i ;; Ret (<[k := v]> l).

(** ** Board *)

Definition HUMAN : Z := -1.
Definition COMP : Z := 1.
(** The source writes the empty marker as the literal [0]. *)
Definition EMPTY : Z := 0.

Abbreviation board_t := (list (list Z)).

(** The module-level [board]. *)
Definition board : board_t := [[0; 0; 0]; [0; 0; 0]; [0; 0; 0]].

(** [state[x][y]] *)
Definition cell (state : board_t) (x y : Z) : outcome Z :=
  r <- getitem state x ;; getitem r y.

(** [state[x][y] = v]: the row object is fetched and updated in place.  The
    three rows of [board] are distinct list objects, so writing a row back at
    its own index is the whole effect. *)
Definition set_cell (state : board_t) (x y : Z) (v : Z) : outcome board_t :=
  r <- getitem state x ;;
  r' <- setitem r y v ;;
  setitem state x r'.

(** The shape every function of the core expects. *)
Definition grid (state : board_t) : Prop :=
  length state = 3%nat /\ Forall (fun r => length r = 3%nat) state.

(** ** Outcome evaluator *)

(** The subscripts of the eight lines, in the order of the [win_state]
    literal. *)
Definition win_lines : list (list (Z * Z)) :=
  [ [(0, 0); (0, 1); (0, 2)];
    [(1, 0); (1, 1); (1, 2)];
    [(2, 0); (2, 1); (2, 2)];
    [(0, 0); (1, 0); (2, 0)];
    [(0, 1); (1, 1); (2, 1)];
    [(0, 2); (1, 2); (2, 2)];
    [(0, 0); (1, 1); (2, 2)];
    [(2, 0); (1, 1); (0, 2)] ].

Definition win_state (state : board_t) : outcome (list (list Z)) :=
  mapM (mapM (fun xy : Z * Z => cell state xy.1 xy.2)) win_lines.

(** [==] on lists of integers. *)
Fixpoint list_eqb (l1 l2 : list Z) : bool :=
  match l1, l2 with
  | [], [] => true
  | a :: l1', b :: l2' => (a =? b) && list_eqb l1' l2'
  | _, _ => false
  end.

Definition wins (state : board_t) (player : Z) : outcome bool :=
  ws <- win_state state ;;
  if existsb (list_eqb [player; player; player]) ws then Ret true else Ret false.

Definition evaluate (state : board_t) : outcome Z :=
  wc <- wins state COMP ;;
  if wc then Ret 1
  else wh <- wins state HUMAN ;;
       if wh then Ret (-1) else Ret 0.

(** [wins(state, HUMAN) or wins(state, COMP)], with Python's short circuit. *)
Definition game_over (state : board_t) : outcome bool :=
  wh <- wins state HUMAN ;;
  if wh then Ret true else wins state COMP.

(** ** Board queries and the single mutation entry point *)

Fixpoint enumerate_from {A : Type} (i : Z) (l : list A) : list (Z * A) :=
  match l with
  | [] => []
  | a :: l' => (i, a) :: enumerate_from (i + 1) l'
  end.

Definition enumerate {A : Type} (l : list A) : list (Z * A) := enumerate_from 0 l.

Definition empty_cells (state : board_t) : list (Z * Z) :=
  flat_map (fun xr : Z * list Z =>
    flat_map (fun yc : Z * Z => if yc.2 =? 0 then [(xr.1, yc.1)] else [])
             (enumerate xr.2))
    (enumerate state).

Definition coord_eqb (a b : Z * Z) : bool := (a.1 =? b.1) && (a.2 =? b.2).

(** [valid_move] and [set_move] read and write the global [board]; it is an
    explicit argument here. *)
Definition valid_move (b : board_t) (x y : Z) : bool :=
  if existsb (coord_eqb (x, y)) (empty_cells b) then true else false.

Definition set_move (b : board_t) (x y : Z) (player : Z) : outcome (board_t * bool) :=
  if valid_move b x y then
    b' <- set_cell b x y player ;; Ret (b', true)
  else Ret (b, false).

(** ** Minimax engine *)

(** Scores are the integers of [evaluate] or the float sentinels [-inf],
    [+inf] of the initial [best]. *)
Inductive value : Type :=
| NegInf
| Fin (z : Z)
| PosInf.

Definition value_ltb (a b : value) : bool :=
  match a, b with
  | NegInf, NegInf => false
  | NegInf, _ => true
  | Fin _, NegInf => false
  | Fin x, Fin y => x <? y
  | Fin _, PosInf => true
  | PosInf, _ => false
  end.

Definition value_gtb (a b : value) : bool := value_ltb b a.

(** The three-element list [[row, col, score]]. *)
Record SearchResult : Type := mkResult { row : Z; col : Z; score : value }.

(** The candidate loop of [minimax].  [rec] is the recursive call on the
    child position; the board is threaded through placement, recursion and
    removal. *)
Fixpoint minimax_loop (rec : board_t -> outcome (board_t * SearchResult))
    (player : Z) (cells : list (Z * Z)) (state : board_t) (best : SearchResult)
    : outcome (board_t * SearchResult) :=
  match cells with
  | [] => Ret (state, best)
  | (x, y) :: cells' =>
      state1 <- set_cell state x y player ;;
      r <- rec state1 ;;
      let '(state2, child) := r in
      state3 <- set_cell state2 x y 0 ;;
      let sc := mkResult x y (score child) in
      let best' :=
        if player =? COMP then
          if value_gtb (score sc) (score best) then sc else best
        else
          if value_ltb (score sc) (score best) then sc else best in
      minimax_loop rec player cells' state3 best'
  end.

Fixpoint minimax (fuel : nat) (state : board_t) (depth : Z) (player : Z)
    : outcome (board_t * SearchResult) :=
  match fuel with
  | O => OutOfFuel
  | S fuel' =>
      let best :=
        if player =? COMP then mkResult (-1) (-1) NegInf
        else mkResult (-1) (-1) PosInf in
      leaf <- (if depth =? 0 then Ret true else game_over state) ;;
      if leaf : bool then
        sc <- evaluate state ;; Ret (state, mkResult (-1) (-1) (Fin sc))
      else
        minimax_loop (fun s => minimax fuel' s (depth - 1) (- player))
                     player (empty_cells state) state best
  end.

(** ** The specification's reading of a win *)

(** Stated from the specification: the eight winning lines are the three
    rows, the three columns and the two diagonals, and a side has won when
    one of them is entirely its own. *)
Definition spec_row (i : Z) : list (Z * Z) := [(i, 0); (i, 1); (i, 2)].
Definition spec_column (j : Z) : list (Z * Z) := [(0, j); (1, j); (2, j)].
Definition spec_diagonals : list (list (Z * Z)) :=
  [ [(0, 0); (1, 1); (2, 2)]; [(0, 2); (1, 1); (2, 0)] ].
Definition spec_lines : list (list (Z * Z)) :=
  map spec_row [0; 1; 2] ++ map spec_column [0; 1; 2] ++ spec_diagonals.

Definition occupies (state : board_t) (player : Z) (line : list (Z * Z)) : Prop :=
  Forall (fun xy : Z * Z => cell state xy.1 xy.2 = Ret player) line.

Definition has_won_spec (state : board_t) (player : Z) : Prop :=
  Exists (occupies state player) spec_lines.

(** ** Vocabulary of the proofs *)

(** Number of empty cells, row by row: the length of [empty_cells]. *)
Fixpoint zeros (r : list Z) : nat :=
  match r with
  | [] => 0%nat
  | c :: r' => ((if (c =? 0)%Z then 1 else 0) + zeros r')%nat
  end.

Fixpoint count_empty (state : board_t) : nat :=
  match state with
  | [] => 0%nat
  | r :: state' => (zeros r + count_empty state')%nat
  end.

(** The boolean that [wins] computes on a three-by-three board. *)
Definition line3 (p x y z : Z) : bool := (p =? x) && ((p =? y) && ((p =? z) && true)).

(** The selection made at the end of one iteration. *)
Definition choose (p : Z) (sc best : SearchResult) : SearchResult :=
  if p =? COMP then
    if value_gtb (score sc) (score best) then sc else best
  else
    if value_ltb (score sc) (score best) then sc else best.

(** The initial [best]. *)
Definition init_best (p : Z) : SearchResult :=
  if p =? COMP then mkResult (-1) (-1) NegInf else mkResult (-1) (-1) PosInf.

(** A score produced by [evaluate]. *)
Definition finite_score (r : SearchResult) : Prop :=
  exists z, score r = Fin z /\ -1 <= z <= 1.

(** Non-strict comparison of scores. *)
Definition value_leb (a b : value) : bool := negb (value_ltb b a).

(** [better_eq p a b]: for player [p], score [a] is at least as good as [b]. *)
Definition better_eq (p : Z) (a b : value) : bool :=
  if p =? COMP then value_leb b a else value_leb a b.

(** [within dir v x]: [v <= x] when [dir] is true, [x <= v] otherwise. *)
Definition within (dir : bool) (v x : value) : bool :=
  if dir then value_leb v x else value_leb x v.

Fixpoint any {A : Type} (f : A -> bool) (l : list A) : bool :=
  match l with
  | [] => false
  | a :: l' => if f a then true else any f l'
  end.

Fixpoint all {A : Type} (f : A -> bool) (l : list A) : bool :=
  match l with
  | [] => true
  | a :: l' => if f a then all f l' else false
  end.

(** A bound on the score of [minimax] is established by one child at a node
    that optimises in the direction of the bound, and by all children at a
    node that optimises against it. *)
Fixpoint check (fuel : nat) (dir : bool) (v : value) (s : board_t) (d p : Z) : bool :=
  match fuel with
  | O => false
  | S fuel' =>
      match (if d =? 0 then Ret true else game_over s) with
      | Ret true =>
          match evaluate s with
          | Ret sc => within dir v (Fin sc)
          | _ => false
          end
      | Ret false =>
          let child (xy : Z * Z) :=
            match set_cell s xy.1 xy.2 p with
            | Ret s1 => check fuel' dir v s1 (d - 1) (- p)
            | _ => false
            end in
          if Bool.eqb (p =? COMP) dir then any child (empty_cells s)
          else all child (empty_cells s)
      | _ => false
      end
  end.

(** Row-major order on coordinates. *)
Definition row_major (a b : Z * Z) : Prop :=
  a.1 < b.1 \/ (a.1 = b.1 /\ a.2 < b.2).

(** The board has the nine cells that [wins] reads. *)
Definition covers3 (s : board_t) : Prop :=
  forall i j : nat, (i < 3)%nat -> (j < 3)%nat ->
    exists r c, s !! i = Some r /\ r !! j = Some c.

(** The score that the candidate loop of [minimax] obtains for one cell. *)
Definition child_score (fuel : nat) (s : board_t) (d p : Z) (xy : Z * Z)
    : outcome value :=
  s1 <- set_cell s xy.1 xy.2 p ;;
  r <- minimax fuel s1 (d - 1) (- p) ;;
  Ret (score r.2).

(** The strict comparison by which a candidate replaces [best]. *)
Definition beats (p : Z) (a b : value) : bool :=
  if p =? COMP then value_gtb a b else value_ltb a b.

(** ** The value of a position under optimal play *)

(** The textbook definition, independent of the search: a position in which
    a side has a line, or with no move left, is worth its payoff; otherwise it
    is worth the largest value among the positions COMP can move to when COMP
    is to move, and the smallest among those the opponent can move to
    otherwise. *)
Definition won (s : board_t) (p : Z) : bool :=
  match wins s p with Ret true => true | _ => false end.

Definition payoff (s : board_t) : Z :=
  if won s COMP then 1 else if won s HUMAN then -1 else 0.

Definition mark (s : board_t) (xy : Z * Z) (p : Z) : board_t :=
  match set_cell s xy.1 xy.2 p with Ret s' => s' | _ => s end.

Fixpoint game_value (plies : nat) (s : board_t) (p : Z) : Z :=
  match plies with
  | O => payoff s
  | S plies' =>
      if won s HUMAN || won s COMP then payoff s
      else
        match map (fun xy => game_value plies' (mark s xy p) (- p)) (empty_cells s) with
        | [] => payoff s
        | v :: vs => if p =? COMP then foldr Z.max v vs else foldr Z.min v vs
        end
  end.

(** ** The turn controller *)

(** What the program does to the outside world, in order: [clean()],
    [time.sleep], every [print] with the text it writes (its line end
    included) and every [input] with its prompt. *)
Inductive event : Type :=
| Clear
| Sleep (seconds : Z)
| Print (text : string)
| Prompt (text : string).

(** The state the controller works on: the global [board], the lines still
    to be read from standard input ([Some n] for text that [int] accepts,
    [None] for text on which it raises [ValueError]), the number of values
    drawn so far from [random.choice], and the events so far. *)
Record world : Type := mkWorld {
  brd : board_t;
  stdin : list (option Z);
  draws : nat;
  trace : list event
}.

(** How a controller function can end other than by returning. *)
Inductive ending : Type :=
| Exited            (* exit() *)
| RaisedIndexError
| RaisedKeyError
| OutOfBudget.

Inductive run (A : Type) : Type :=
| Go (a : A)
| Stop (e : ending) (w : world).
Arguments Go {A} a.
Arguments Stop {A} e w.

Definition run_bind {A B : Type} (m : run A) (k : A -> run B) : run B :=
  match m with
  | Go a => k a
  | Stop e w => Stop e w
  end.

Notation "x <~ m ;; k" := (run_bind m (fun x => k))
  (at level 100, m at next level, right associativity) : outcome_scope.

(** A call into the core made in world [w]. *)
Definition call {A : Type} (w : world) (m : outcome A) : run A :=
  match m with
  | Ret a => Go a
  | IndexError => Stop RaisedIndexError w
  | OutOfFuel => Stop OutOfBudget w
  end.

Definition emit (e : event) (w : world) : world :=
  mkWorld (brd w) (stdin w) (draws w) (trace w ++ [e]).

Definition with_board (b : board_t) (w : world) : world :=
  mkWorld b (stdin w) (draws w) (trace w).

Definition newline : string := String (ascii_of_nat 10) EmptyString.

Definition str_line : string := "---------------".

(** The dictionary [moves] of [human_turn], as the literal lists it. *)
Definition moves : list (Z * (Z * Z)) :=
  [ (1, (0, 0)); (2, (0, 1)); (3, (0, 2));
    (4, (1, 0)); (5, (1, 1)); (6, (1, 2));
    (7, (2, 0)); (8, (2, 1)); (9, (2, 2)) ].

Fixpoint dict_get {V : Type} (d : list (Z * V)) (k : Z) : option V :=
  match d with
  | [] => None
  | (k', v) :: d' => if k =? k' then Some v else dict_get d' k
  end.

Section Controller.
Variables c_choice h_choice : string.
(** [rnd k]: the value returned by the [k]-th call of [choice([0, 1, 2])]. *)
Variable rnd : nat -> Z.
(** The recursion budget given to [minimax]. *)
Variable budget : nat.

(** The dictionary [chars] of [render]. *)
Definition chars : list (Z * string) :=
  [ (-1, h_choice); (1, c_choice); (0, " "%string) ].

Fixpoint render_row (r : list Z) (w : world) : run world :=
  match r with
  | [] => Go w
  | c :: r' =>
      match dict_get chars c with
      | None => Stop RaisedKeyError w
      | Some symbol =>
          render_row r' (emit (Print ("| " ++ symbol ++ " |")%string) w)
      end
  end.

Fixpoint render_rows (state : board_t) (w : world) : run world :=
  match state with
  | [] => Go w
  | r :: state' =>
      w1 <~ render_row r w ;;
      render_rows state' (emit (Print (newline ++ str_line ++ newline)%string) w1)
  end.

Definition render (state : board_t) (w : world) : run world :=
  render_rows state (emit (Print (newline ++ str_line ++ newline)%string) w).

Definition ai_turn (w : world) : run world :=
  let depth := Z.of_nat (length (empty_cells (brd w))) in
  over <~ call w (if depth =? 0 then Ret true else game_over (brd w)) ;;
  if over : bool then Go w
  else
    let w := emit Clear w in
    let w := emit (Print ("Computer turn [" ++ c_choice ++ "]" ++ newline)%string) w in
    w <~ render (brd w) w ;;
    xyw <~ (if depth =? 9 then
              Go (rnd (draws w), rnd (S (draws w)),
                  mkWorld (brd w) (stdin w) (S (S (draws w))) (trace w))
            else
              br <~ call w (minimax budget (brd w) depth COMP) ;;
              Go (row br.2, col br.2, with_board br.1 w)) ;;
    let '(x, y, w) := xyw in
    bo <~ call w (set_move (brd w) x y COMP) ;;
    Go (emit (Sleep 1) (with_board bo.1 w)).

(** The [while] loop of [human_turn]; [move] is the variable of that name. *)
Fixpoint human_loop (inputs : list (option Z)) (move : Z) (w : world) : run world :=
  if (move <? 1) || (9 <? move) then
    let w := emit (Prompt "Use numpad (1..9): ") w in
    match inputs with
    | [] =>
        (* EOFError *)
        Stop Exited (emit (Print ("Bye" ++ newline)%string)
                          (mkWorld (brd w) [] (draws w) (trace w)))
    | None :: rest =>
        (* ValueError: [move] keeps its value *)
        human_loop rest move
          (emit (Print ("Bad choice" ++ newline)%string)
                (mkWorld (brd w) rest (draws w) (trace w)))
    | Some n :: rest =>
        let w := mkWorld (brd w) rest (draws w) (trace w) in
        match dict_get moves n with
        | None =>
            (* KeyError *)
            human_loop rest n (emit (Print ("Bad choice" ++ newline)%string) w)
        | Some coord =>
            bo <~ call w (set_move (brd w) coord.1 coord.2 HUMAN) ;;
            let w := with_board bo.1 w in
            if bo.2 : bool then human_loop rest n w
            else human_loop rest (-1) (emit (Print ("Bad move" ++ newline)%string) w)
        end
    end
  else Go w.

Definition human_turn (w : world) : run world :=
  let depth := Z.of_nat (length (empty_cells (brd w))) in
  over <~ call w (if depth =? 0 then Ret true else game_over (brd w)) ;;
  if over : bool then Go w
  else
    let w := emit Clear w in
    let w := emit (Print ("Human turn [" ++ h_choice ++ "]" ++ newline)%string) w in
    w <~ render (brd w) w ;;
    human_loop (stdin w) (-1) w.



End Controller.

(** Every cell is a key of [chars]. *)
Definition marks (s : board_t) : Prop :=
  Forall (Forall (fun c => c = -1 \/ c = 0 \/ c = 1)) s.

(** [quiet w w']: [w'] is [w] with further events, and nothing else changed. *)
Definition quiet (w w' : world) : Prop :=
  brd w' = brd w /\ stdin w' = stdin w /\ draws w' = draws w /\
  exists evs, trace w' = trace w ++ evs.

(** The cell that the numpad key [n] stands for in [moves]. *)
Definition key_cell (n : Z) : Z * Z := ((n - 1) / 3, (n - 1) mod 3).

(** An input line that [human_turn] does not accept on board [b]: text that
    is not an integer, an integer outside 1..9, or the key of a cell that is
    not free. *)
Definition rejected (b : board_t) (t : option Z) : Prop :=
  match t with
  | None => True
  | Some n => n < 1 \/ 9 < n \/ valid_move b (key_cell n).1 (key_cell n).2 = false
  end.

(** The value of a position with all its empty cells still to be played. *)
Definition position_value (s : board_t) (p : Z) : Z :=
  game_value (count_empty s) s p.





(** * Properties *)

(** ** The embedding on concrete inputs *)

Example getitem_last : getitem [10; 20; 30] (-1) = Ret 30.
Proof. reflexivity. Qed.

Example getitem_out_of_range : getitem [10; 20; 30] 3 = IndexError.
Proof. reflexivity. Qed.

Example empty_cells_row_major :
  empty_cells [[1; 0; 0]; [0; -1; 0]; [0; 0; 1]] =
  [(0, 1); (0, 2); (1, 0); (1, 2); (2, 0); (2, 1)].
Proof. reflexivity. Qed.

Example wins_column :
  wins [[-1; 1; 0]; [-1; 1; 0]; [-1; 0; 1]] HUMAN = Ret true /\
  wins [[-1; 1; 0]; [-1; 1; 0]; [-1; 0; 1]] COMP = Ret false.
Proof. split; reflexivity. Qed.

Example wins_short_board : wins [[1; 1; 1]; [0; 0]] COMP = IndexError.
Proof. reflexivity. Qed.

Example minimax_blocks_last_cell :
  minimax 10 [[1; -1; 1]; [1; -1; -1]; [-1; 0; 1]] 1 COMP =
  Ret ([[1; -1; 1]; [1; -1; -1]; [-1; 0; 1]], mkResult 2 1 (Fin 0)).
Proof. reflexivity. Qed.

(** ** Subscripting *)

Lemma bind_ret {A B : Type} (m : outcome A) (k : A -> outcome B) (b : B) :
  bind m k = Ret b -> exists a, m = Ret a /\ k a = Ret b.
Proof. destruct m; simpl; intros H; try discriminate. eauto. Qed.

Lemma py_index_front {A : Type} (l : list A) (i : Z) (a : A) :
  0 <= i -> l !! Z.to_nat i = Some a -> py_index l i = Ret (Z.to_nat i).
Proof.
  intros Hi Hl. apply lookup_lt_Some in Hl. unfold py_index.
  replace (0 <=? i) with true by (symmetry; apply Z.leb_le; lia).
  replace (i <? Z.of_nat (length l)) with true by (symmetry; apply Z.ltb_lt; lia).
  reflexivity.
Qed.

Lemma getitem_front {A : Type} (l : list A) (i : Z) (a : A) :
  0 <= i -> l !! Z.to_nat i = Some a -> getitem l i = Ret a.
Proof.
  intros Hi Hl. unfold getitem. rewrite (py_index_front l i a Hi Hl). simpl.
  rewrite Hl. reflexivity.
Qed.

Lemma setitem_front {A : Type} (l : list A) (i : Z) (a v : A) :
  0 <= i -> l !! Z.to_nat i = Some a -> setitem l i v = Ret (<[Z.to_nat i := v]> l).
Proof.
  intros Hi Hl. unfold setitem. rewrite (py_index_front l i a Hi Hl). reflexivity.
Qed.

Lemma cell_front (s : board_t) (x y : Z) (r : list Z) (c : Z) :
  0 <= x -> 0 <= y -> s !! Z.to_nat x = Some r -> r !! Z.to_nat y = Some c ->
  cell s x y = Ret c.
Proof.
  intros Hx Hy Hr Hc. unfold cell. rewrite (getitem_front s x r Hx Hr). simpl.
  apply (getitem_front r y c Hy Hc).
Qed.

Lemma set_cell_front (s : board_t) (x y : Z) (r : list Z) (c v : Z) :
  0 <= x -> 0 <= y -> s !! Z.to_nat x = Some r -> r !! Z.to_nat y = Some c ->
  set_cell s x y v = Ret (<[Z.to_nat x := <[Z.to_nat y := v]> r]> s).
Proof.
  intros Hx Hy Hr Hc. unfold set_cell. rewrite (getitem_front s x r Hx Hr). simpl.
  rewrite (setitem_front r y c v Hy Hc). simpl.
  apply (setitem_front s x r _ Hx Hr).
Qed.

(** ** Enumeration of the empty cells *)

Lemma in_enumerate_from {A : Type} (l : list A) (k i : Z) (a : A) :
  In (i, a) (enumerate_from k l) <-> k <= i /\ l !! Z.to_nat (i - k) = Some a.
Proof.
  revert k. induction l as [|b l IH]; intros k; simpl.
  - split; [tauto | intros [_ H]; discriminate].
  - rewrite IH. split.
    + intros [H | [Hk Hl]].
      * injection H as <- <-. split; [lia|]. now replace (k - k) with 0 by lia.
      * split; [lia|]. replace (i - k) with (Z.succ (i - (k + 1))) by lia.
        rewrite Z2Nat.inj_succ by lia. exact Hl.
    + intros [Hk Hl]. destruct (Z.eq_dec i k) as [->|Hne].
      * left. replace (k - k) with 0 in Hl by lia. simpl in Hl. congruence.
      * right. split; [lia|]. replace (i - k) with (Z.succ (i - (k + 1))) in Hl by lia.
        rewrite Z2Nat.inj_succ in Hl by lia. exact Hl.
Qed.

Lemma in_empty_cells (s : board_t) (x y : Z) :
  In (x, y) (empty_cells s) <->
  0 <= x /\ 0 <= y /\
  exists r, s !! Z.to_nat x = Some r /\ r !! Z.to_nat y = Some 0.
Proof.
  unfold empty_cells, enumerate. rewrite in_flat_map. split.
  - intros [[x' r] [Hr Hin]]. simpl in Hin. apply in_flat_map in Hin.
    destruct Hin as [[y' c] [Hc Hin]]. simpl in Hin.
    apply in_enumerate_from in Hr, Hc. destruct Hr as [Hx Hr], Hc as [Hy Hc].
    rewrite Z.sub_0_r in Hr, Hc.
    destruct (Z.eqb_spec c 0) as [->|]; simpl in Hin; [|tauto].
    destruct Hin as [Hin|[]]. injection Hin as <- <-. eauto.
  - intros (Hx & Hy & r & Hr & Hc). exists (x, r). split.
    + apply in_enumerate_from. now rewrite Z.sub_0_r.
    + simpl. apply in_flat_map. exists (y, 0). split.
      * apply in_enumerate_from. now rewrite Z.sub_0_r.
      * simpl. now left.
Qed.

Lemma valid_move_spec (b : board_t) (x y : Z) :
  valid_move b x y = true <-> In (x, y) (empty_cells b).
Proof.
  unfold valid_move.
  destruct (existsb (coord_eqb (x, y)) (empty_cells b)) eqn:E.
  - split; [intros _|reflexivity]. apply existsb_exists in E.
    destruct E as [[x' y'] [Hin Heq]]. unfold coord_eqb in Heq. simpl in Heq.
    apply andb_true_iff in Heq. destruct Heq as [H1 H2].
    apply Z.eqb_eq in H1, H2. now subst.
  - split; [discriminate|]. intros Hin.
    assert (existsb (coord_eqb (x, y)) (empty_cells b) = true) as E'; [|congruence].
    apply existsb_exists. exists (x, y). split; [exact Hin|].
    unfold coord_eqb. simpl. now rewrite !Z.eqb_refl.
Qed.

(** ** Three-by-three boards *)

Lemma length_3_inv {A : Type} (l : list A) :
  length l = 3%nat -> exists a b c, l = [a; b; c].
Proof.
  destruct l as [|a [|b [|c [|d l]]]]; simpl; intros H; try discriminate. eauto.
Qed.

Lemma grid_inv (s : board_t) :
  grid s ->
  exists a b c d e f g h i, s = [[a; b; c]; [d; e; f]; [g; h; i]].
Proof.
  intros [Hlen Hrows]. apply length_3_inv in Hlen. destruct Hlen as (r0 & r1 & r2 & ->).
  apply Forall_cons in Hrows. destruct Hrows as [H0 Hrows].
  apply Forall_cons in Hrows. destruct Hrows as [H1 Hrows].
  apply Forall_cons in Hrows. destruct Hrows as [H2 _].
  apply length_3_inv in H0, H1, H2.
  destruct H0 as (a & b & c & ->), H1 as (d & e & f & ->), H2 as (g & h & i & ->).
  repeat eexists.
Qed.

Lemma grid_intro (a b c d e f g h i : Z) : grid [[a; b; c]; [d; e; f]; [g; h; i]].
Proof. split; [reflexivity|]. repeat constructor. Qed.

Ltac grid_cases H :=
  let a := fresh "a" in let b := fresh "b" in let c := fresh "c" in
  let d := fresh "d" in let e := fresh "e" in let f := fresh "f" in
  let g := fresh "g" in let h := fresh "h" in let i := fresh "i" in
  apply grid_inv in H;
  destruct H as (a & b & c & d & e & f & g & h & i & ->).

Lemma win_state_grid (a b c d e f g h i : Z) :
  win_state [[a; b; c]; [d; e; f]; [g; h; i]] =
  Ret [ [a; b; c]; [d; e; f]; [g; h; i];
        [a; d; g]; [b; e; h]; [c; f; i];
        [a; e; i]; [g; e; c] ].
Proof. reflexivity. Qed.

Lemma wins_grid (a b c d e f g h i p : Z) :
  wins [[a; b; c]; [d; e; f]; [g; h; i]] p =
  Ret (line3 p a b c || (line3 p d e f || (line3 p g h i ||
       (line3 p a d g || (line3 p b e h || (line3 p c f i ||
       (line3 p a e i || (line3 p g e c || false)))))))).
Proof.
  unfold wins. rewrite win_state_grid. cbn [bind existsb list_eqb]. fold (line3 p a b c).
  unfold line3. now destruct (_ || _).
Qed.

Lemma line3_true (p x y z : Z) : line3 p x y z = true <-> x = p /\ y = p /\ z = p.
Proof.
  unfold line3. rewrite !andb_true_iff, !Z.eqb_eq. intuition congruence.
Qed.

Lemma wins_total (s : board_t) (p : Z) : grid s -> exists w, wins s p = Ret w.
Proof. intros H. grid_cases H. rewrite wins_grid. eauto. Qed.

Lemma Ret_inj {A : Type} (a b : A) : Ret a = Ret b <-> a = b.
Proof. split; [intros H; now injection H | now intros ->]. Qed.

Lemma occupies_grid (a b c d e f g h i p : Z) (q0 q1 q2 : Z * Z) (x y z : Z) :
  cell [[a; b; c]; [d; e; f]; [g; h; i]] q0.1 q0.2 = Ret x ->
  cell [[a; b; c]; [d; e; f]; [g; h; i]] q1.1 q1.2 = Ret y ->
  cell [[a; b; c]; [d; e; f]; [g; h; i]] q2.1 q2.2 = Ret z ->
  occupies [[a; b; c]; [d; e; f]; [g; h; i]] p [q0; q1; q2] <-> line3 p x y z = true.
Proof.
  intros H0 H1 H2. unfold occupies.
  rewrite !Forall_cons, H0, H1, H2, !Ret_inj, line3_true.
  split; [tauto|]. intros (? & ? & ?). repeat split; auto.
Qed.

Lemma wins_true_iff (s : board_t) (p : Z) :
  grid s -> (wins s p = Ret true <-> has_won_spec s p).
Proof.
  intros H. grid_cases H.
  rewrite wins_grid, Ret_inj. unfold has_won_spec, spec_lines, spec_diagonals.
  cbn [map app spec_row spec_column].
  rewrite !Exists_cons, Exists_nil.
  rewrite (occupies_grid a b c d e f g h i p (0,0) (0,1) (0,2) a b c) by reflexivity.
  rewrite (occupies_grid a b c d e f g h i p (1,0) (1,1) (1,2) d e f) by reflexivity.
  rewrite (occupies_grid a b c d e f g h i p (2,0) (2,1) (2,2) g h i) by reflexivity.
  rewrite (occupies_grid a b c d e f g h i p (0,0) (1,0) (2,0) a d g) by reflexivity.
  rewrite (occupies_grid a b c d e f g h i p (0,1) (1,1) (2,1) b e h) by reflexivity.
  rewrite (occupies_grid a b c d e f g h i p (0,2) (1,2) (2,2) c f i) by reflexivity.
  rewrite (occupies_grid a b c d e f g h i p (0,0) (1,1) (2,2) a e i) by reflexivity.
  rewrite (occupies_grid a b c d e f g h i p (0,2) (1,1) (2,0) c e g) by reflexivity.
  rewrite !orb_true_iff.
  assert (line3 p g e c = true <-> line3 p c e g = true) as ->
    by (rewrite !line3_true; tauto).
  intuition discriminate.
Qed.

Lemma wins_false_iff (s : board_t) (p : Z) :
  grid s -> (wins s p = Ret false <-> ~ has_won_spec s p).
Proof.
  intros H. rewrite <- (wins_true_iff s p H).
  destruct (wins_total s p H) as [[|] ->]; split; congruence.
Qed.

Lemma evaluate_total (s : board_t) :
  grid s -> exists v, evaluate s = Ret v /\ (v = -1 \/ v = 0 \/ v = 1).
Proof.
  intros H. unfold evaluate.
  destruct (wins_total s HUMAN H) as [wh Hh], (wins_total s COMP H) as [wc ->].
  cbn [bind]. destruct wc; [eauto|].
  rewrite Hh. cbn [bind]. destruct wh; eauto.
Qed.

Lemma game_over_total (s : board_t) : grid s -> exists t, game_over s = Ret t.
Proof.
  intros H. unfold game_over.
  destruct (wins_total s HUMAN H) as [wh ->], (wins_total s COMP H) as [wc Hc].
  cbn [bind]. destruct wh; eauto.
Qed.

(** ** The outcome evaluator *)

(** C6: on every three-by-three board and for every player value, [wins]
    returns, and it returns true exactly when one of the eight lines of the
    specification (three rows, three columns, two diagonals) is entirely
    occupied by that player, and false exactly when none is. *)
Theorem wins_iff_has_won_spec (s : board_t) (p : Z) :
  grid s ->
  (exists w, wins s p = Ret w) /\
  (wins s p = Ret true <-> has_won_spec s p) /\
  (wins s p = Ret false <-> ~ has_won_spec s p).
Proof.
  intros H. split; [|split].
  - exact (wins_total s p H).
  - exact (wins_true_iff s p H).
  - exact (wins_false_iff s p H).
Qed.

Lemma wins_iff_has_won_spec_witness :
  wins [[1; 0; -1]; [0; 1; -1]; [0; 0; 1]] COMP = Ret true /\
  has_won_spec [[1; 0; -1]; [0; 1; -1]; [0; 0; 1]] COMP.
Proof.
  split; [reflexivity|].
  apply (wins_iff_has_won_spec [[1; 0; -1]; [0; 1; -1]; [0; 0; 1]] COMP).
  - apply grid_intro.
  - reflexivity.
Defined.

(** C10: the win test does not look at which value it is given.  Called
    with the empty marker it answers true as soon as one of the eight lines
    is entirely empty, and in particular on the initial board. *)
Theorem wins_empty_marker :
  (forall s : board_t, grid s -> has_won_spec s EMPTY -> wins s EMPTY = Ret true) /\
  wins board 0 = Ret true.
Proof.
  split; [|reflexivity].
  intros s Hg Hl. now apply wins_true_iff.
Qed.

Lemma wins_empty_marker_witness :
  wins [[1; -1; 1]; [0; 0; 0]; [-1; 1; -1]] EMPTY = Ret true.
Proof.
  apply (proj1 wins_empty_marker).
  - apply grid_intro.
  - unfold has_won_spec, spec_lines. cbn [map app spec_row].
    apply Exists_cons_tl, Exists_cons_hd. unfold occupies.
    repeat constructor.
Defined.

(** C7: on every three-by-three board [game_over] returns, and it is true
    exactly when [wins] is true for HUMAN or for COMP.  A board without
    empty cells on which neither side has a line is therefore not flagged:
    exhaustion has to be read from [empty_cells]. *)
Theorem game_over_iff_wins (s : board_t) :
  grid s ->
  (exists t, game_over s = Ret t) /\
  (game_over s = Ret true <-> wins s HUMAN = Ret true \/ wins s COMP = Ret true) /\
  (empty_cells s = [] -> wins s HUMAN = Ret false -> wins s COMP = Ret false ->
   game_over s = Ret false).
Proof.
  intros H. unfold game_over.
  destruct (wins_total s HUMAN H) as [wh ->], (wins_total s COMP H) as [wc Hc].
  cbn [bind]. destruct wh.
  - split; [eauto|]. split; [tauto|]. discriminate.
  - rewrite Hc. split; [eauto|]. split.
    + split; [tauto|]. intros [Hf|Ht]; [discriminate|exact Ht].
    + intros _ _ Hf. exact Hf.
Qed.

Lemma game_over_iff_wins_witness :
  empty_cells [[1; -1; 1]; [1; -1; -1]; [-1; 1; 1]] = [] /\
  game_over [[1; -1; 1]; [1; -1; -1]; [-1; 1; 1]] = Ret false.
Proof.
  split; [reflexivity|].
  apply (game_over_iff_wins [[1; -1; 1]; [1; -1; -1]; [-1; 1; 1]]).
  - apply grid_intro.
  - reflexivity.
  - reflexivity.
  - reflexivity.
Defined.

(** C8: on every three-by-three board [evaluate] returns one of -1, 0, +1:
    +1 when COMP has a line, otherwise -1 when HUMAN has a line, otherwise 0
    (the tests are made in that order). *)
Theorem evaluate_range (s : board_t) :
  grid s ->
  exists v, evaluate s = Ret v /\
    (v = -1 \/ v = 0 \/ v = 1) /\
    (wins s COMP = Ret true -> v = 1) /\
    (wins s COMP = Ret false -> wins s HUMAN = Ret true -> v = -1) /\
    (wins s COMP = Ret false -> wins s HUMAN = Ret false -> v = 0).
Proof.
  intros H. unfold evaluate.
  destruct (wins_total s HUMAN H) as [wh Hh], (wins_total s COMP H) as [wc ->].
  cbn [bind]. destruct wc.
  - exists 1. repeat split; auto; discriminate.
  - rewrite Hh. cbn [bind]. destruct wh.
    + exists (-1). repeat split; auto; discriminate.
    + exists 0. repeat split; auto; discriminate.
Qed.

Lemma evaluate_range_witness :
  exists v, evaluate [[-1; -1; -1]; [1; 1; 0]; [0; 0; 1]] = Ret v /\ v = -1.
Proof.
  destruct (evaluate_range [[-1; -1; -1]; [1; 1; 0]; [0; 0; 1]] (grid_intro _ _ _ _ _ _ _ _ _))
    as (v & Hv & _ & _ & Hh & _).
  exists v. split; [exact Hv|]. apply Hh; reflexivity.
Defined.

(** ** Validation and application of a move *)

Lemma set_cell_empty (s : board_t) (x y v : Z) :
  In (x, y) (empty_cells s) ->
  exists r, s !! Z.to_nat x = Some r /\ r !! Z.to_nat y = Some 0 /\
            set_cell s x y v = Ret (<[Z.to_nat x := <[Z.to_nat y := v]> r]> s).
Proof.
  intros Hin. apply in_empty_cells in Hin. destruct Hin as (Hx & Hy & r & Hr & Hc).
  exists r. repeat split; auto. exact (set_cell_front s x y r 0 v Hx Hy Hr Hc).
Qed.

Lemma index_cases (x : Z) : 0 <= x < 3 -> x = 0 \/ x = 1 \/ x = 2.
Proof. lia. Qed.

Lemma lookup_grid_bound {A : Type} (l : list A) (x : Z) (a : A) :
  length l = 3%nat -> 0 <= x -> l !! Z.to_nat x = Some a -> 0 <= x < 3.
Proof. intros Hl Hx Hs. apply lookup_lt_Some in Hs. lia. Qed.

Lemma valid_move_grid (b : board_t) (x y : Z) :
  grid b ->
  (valid_move b x y = true <-> 0 <= x < 3 /\ 0 <= y < 3 /\ cell b x y = Ret 0).
Proof.
  intros Hg. rewrite valid_move_spec, in_empty_cells. split.
  - intros (Hx & Hy & r & Hr & Hc).
    assert (length r = 3%nat) as Hlr.
    { destruct Hg as [_ Hrows]. rewrite Forall_lookup in Hrows. exact (Hrows _ _ Hr). }
    repeat split; try lia.
    + destruct Hg as [Hl _]. apply (lookup_grid_bound b x r Hl Hx Hr).
    + apply (lookup_grid_bound r y 0 Hlr Hy Hc).
    + exact (cell_front b x y r 0 Hx Hy Hr Hc).
  - intros (Hx & Hy & Hc). split; [lia|]. split; [lia|].
    grid_cases Hg.
    destruct (index_cases x Hx) as [-> | [-> | ->]];
      destruct (index_cases y Hy) as [-> | [-> | ->]];
      vm_compute in Hc; injection Hc as ->; eexists; split; reflexivity.
Qed.

(** C9: on every three-by-three board, a move is valid exactly when its
    coordinates are in bounds and the cell is empty.  A valid move makes
    [set_move] write the player's mark into that cell, leave every other cell
    as it was and return true; any other move returns false with the board
    unchanged. *)
Theorem set_move_spec (b : board_t) (x y p : Z) :
  grid b ->
  (valid_move b x y = true <-> 0 <= x < 3 /\ 0 <= y < 3 /\ cell b x y = Ret 0) /\
  (valid_move b x y = true ->
   exists b', set_move b x y p = Ret (b', true) /\ grid b' /\
              cell b' x y = Ret p /\
              forall x' y', 0 <= x' < 3 -> 0 <= y' < 3 -> (x', y') <> (x, y) ->
                            cell b' x' y' = cell b x' y') /\
  (valid_move b x y = false -> set_move b x y p = Ret (b, false)).
Proof.
  intros Hg. split; [exact (valid_move_grid b x y Hg)|]. split.
  - intros Hv. unfold set_move. rewrite Hv.
    pose proof (proj1 (valid_move_grid b x y Hg) Hv) as (Hx & Hy & _).
    apply valid_move_spec in Hv.
    destruct (set_cell_empty b x y p Hv) as (r & Hr & Hc & ->). cbn [bind].
    eexists. split; [reflexivity|].
    grid_cases Hg.
    destruct (index_cases x Hx) as [-> | [-> | ->]];
      destruct (index_cases y Hy) as [-> | [-> | ->]];
      vm_compute in Hr; injection Hr as <-;
      (split; [apply grid_intro|]); (split; [reflexivity|]);
      intros x' y' Hx' Hy' Hne;
      destruct (index_cases x' Hx') as [-> | [-> | ->]];
      destruct (index_cases y' Hy') as [-> | [-> | ->]];
      solve [reflexivity | contradiction Hne; reflexivity].
  - intros Hv. unfold set_move. now rewrite Hv.
Qed.

Lemma set_move_spec_witness :
  set_move [[1; 0; 0]; [0; -1; 0]; [0; 0; 0]] 2 1 COMP =
    Ret ([[1; 0; 0]; [0; -1; 0]; [0; 1; 0]], true) /\
  set_move [[1; 0; 0]; [0; -1; 0]; [0; 0; 0]] 1 1 COMP =
    Ret ([[1; 0; 0]; [0; -1; 0]; [0; 0; 0]], false) /\
  set_move [[1; 0; 0]; [0; -1; 0]; [0; 0; 0]] 3 (-1) COMP =
    Ret ([[1; 0; 0]; [0; -1; 0]; [0; 0; 0]], false).
Proof.
  split; [reflexivity|]. split.
  - apply (set_move_spec [[1; 0; 0]; [0; -1; 0]; [0; 0; 0]] 1 1 COMP).
    + apply grid_intro.
    + reflexivity.
  - apply (set_move_spec [[1; 0; 0]; [0; -1; 0]; [0; 0; 0]] 3 (-1) COMP).
    + apply grid_intro.
    + reflexivity.
Defined.

(** ** Counting the empty cells *)

Lemma length_row_cells (x j : Z) (r : list Z) :
  length (flat_map (fun yc : Z * Z => if yc.2 =? 0 then [(x, yc.1)] else [])
                   (enumerate_from j r)) = zeros r.
Proof.
  revert j. induction r as [|c r IH]; intros j; simpl; [reflexivity|].
  rewrite length_app, IH. now destruct (c =? 0).
Qed.

Lemma length_cells_from (i : Z) (s : board_t) :
  length (flat_map (fun xr : Z * list Z =>
            flat_map (fun yc : Z * Z => if yc.2 =? 0 then [(xr.1, yc.1)] else [])
                     (enumerate xr.2))
          (enumerate_from i s)) = count_empty s.
Proof.
  revert i. induction s as [|r s IH]; intros i; simpl; [reflexivity|].
  rewrite length_app, IH. unfold enumerate. now rewrite length_row_cells.
Qed.

Lemma length_empty_cells (s : board_t) : length (empty_cells s) = count_empty s.
Proof. apply length_cells_from. Qed.

Lemma zeros_insert (r : list Z) (j : nat) (p : Z) :
  r !! j = Some 0 -> p <> 0 -> S (zeros (<[j := p]> r)) = zeros r.
Proof.
  revert j. induction r as [|c r IH]; intros j Hj Hp; [discriminate|].
  destruct j as [|j].
  - simpl in *. injection Hj as ->. simpl.
    destruct (Z.eqb_spec p 0); [contradiction|reflexivity].
  - specialize (IH j Hj Hp). simpl in *. destruct (c =? 0); lia.
Qed.

Lemma count_empty_insert (s : board_t) (i : nat) (r r' : list Z) :
  s !! i = Some r -> S (zeros r') = zeros r ->
  S (count_empty (<[i := r']> s)) = count_empty s.
Proof.
  revert i. induction s as [|r0 s IH]; intros i Hi Hz; [discriminate|].
  destruct i as [|i].
  - simpl in *. injection Hi as ->. lia.
  - specialize (IH i Hi Hz). simpl in *. lia.
Qed.

Lemma grid_insert (s : board_t) (i j : nat) (r : list Z) (v : Z) :
  grid s -> s !! i = Some r -> grid (<[i := <[j := v]> r]> s).
Proof.
  intros [Hl Hrows] Hr. split.
  - now rewrite length_insert.
  - apply Forall_insert; [exact Hrows|]. rewrite length_insert.
    rewrite Forall_lookup in Hrows. exact (Hrows _ _ Hr).
Qed.

(** Placing a mark on an empty cell: the board keeps its shape and has one
    empty cell less; taking the mark off again gives the board back. *)
Lemma set_cell_place (s : board_t) (x y p : Z) :
  In (x, y) (empty_cells s) ->
  exists s1, set_cell s x y p = Ret s1 /\
             set_cell s1 x y 0 = Ret s /\
             (grid s -> grid s1) /\
             (p <> 0 -> S (count_empty s1) = count_empty s).
Proof.
  intros Hin. pose proof Hin as Hin'. apply in_empty_cells in Hin'.
  destruct Hin' as (Hx & Hy & _).
  destruct (set_cell_empty s x y p Hin) as (r & Hr & Hc & Hset).
  eexists. split; [exact Hset|].
  assert (Z.to_nat x < length s)%nat as Hlx by (now apply lookup_lt_Some in Hr).
  assert (Z.to_nat y < length r)%nat as Hly by (now apply lookup_lt_Some in Hc).
  split; [|split].
  - rewrite (set_cell_front _ x y (<[Z.to_nat y := p]> r) p 0 Hx Hy).
    + rewrite list_insert_insert_eq, list_insert_insert_eq.
      rewrite (list_insert_id r _ _ Hc). now rewrite (list_insert_id s _ _ Hr).
    + now apply list_lookup_insert_eq.
    + now apply list_lookup_insert_eq.
  - intros Hg. now apply grid_insert.
  - intros Hp. apply (count_empty_insert s _ r _ Hr). now apply zeros_insert.
Qed.

(** ** The candidate loop *)

Lemma minimax_unfold (fuel : nat) (s : board_t) (d p : Z) :
  minimax (S fuel) s d p =
  (leaf <- (if d =? 0 then Ret true else game_over s) ;;
   if leaf : bool then
     sc <- evaluate s ;; Ret (s, mkResult (-1) (-1) (Fin sc))
   else
     minimax_loop (fun s' => minimax fuel s' (d - 1) (- p)) p (empty_cells s) s
                  (init_best p)).
Proof. reflexivity. Qed.

Lemma minimax_loop_step (rec : board_t -> outcome (board_t * SearchResult))
    (p x y : Z) (cells : list (Z * Z)) (s s1 : board_t) (best c : SearchResult) :
  set_cell s x y p = Ret s1 -> rec s1 = Ret (s1, c) -> set_cell s1 x y 0 = Ret s ->
  minimax_loop rec p ((x, y) :: cells) s best =
  minimax_loop rec p cells s (choose p (mkResult x y (score c)) best).
Proof.
  intros H1 H2 H3. cbn [minimax_loop]. rewrite H1. cbn [bind]. rewrite H2. cbn [bind].
  rewrite H3. reflexivity.
Qed.

Section Loop.
Variable rec : board_t -> outcome (board_t * SearchResult).
Variable p : Z.
Variable s : board_t.

(** If every recursive call hands its board back, so does the loop. *)
Lemma minimax_loop_frame (cells : list (Z * Z)) (best r : SearchResult) (s' : board_t) :
  (forall s1 s2 c, rec s1 = Ret (s2, c) -> s2 = s1) ->
  incl cells (empty_cells s) ->
  minimax_loop rec p cells s best = Ret (s', r) -> s' = s.
Proof.
  intros Hrec. revert best. induction cells as [|[x y] cells IH]; intros best Hincl Hrun.
  - cbn in Hrun. now injection Hrun as <- _.
  - assert (In (x, y) (empty_cells s)) as Hin by (apply Hincl; now left).
    destruct (set_cell_place s x y p Hin) as (s1 & Hset & Hback & _).
    cbn [minimax_loop] in Hrun. rewrite Hset in Hrun. cbn [bind] in Hrun.
    apply bind_ret in Hrun. destruct Hrun as ([s2 c] & Hc & Hrun).
    apply Hrec in Hc as Heq. subst s2. rewrite Hback in Hrun. cbn [bind] in Hrun.
    apply IH in Hrun; [exact Hrun|].
    intros xy Hxy. apply Hincl. now right.
Qed.

(** If every recursive call returns with its board intact and a candidate
    satisfying [Q], the loop returns the board and either the incoming
    [best] or one of the candidates. *)
Lemma minimax_loop_run (Q : SearchResult -> Prop) :
  (forall x y s1, In (x, y) (empty_cells s) -> set_cell s x y p = Ret s1 ->
     exists c, rec s1 = Ret (s1, c) /\ Q (mkResult x y (score c))) ->
  forall (cells : list (Z * Z)) (best : SearchResult),
    incl cells (empty_cells s) ->
    exists r, minimax_loop rec p cells s best = Ret (s, r) /\
              (r = best \/ (In (row r, col r) cells /\ Q r)).
Proof.
  intros Hrec. induction cells as [|[x y] cells IH]; intros best Hincl.
  - exists best. split; [reflexivity|now left].
  - assert (In (x, y) (empty_cells s)) as Hin by (apply Hincl; now left).
    destruct (set_cell_place s x y p Hin) as (s1 & Hset & Hback & _).
    destruct (Hrec x y s1 Hin Hset) as (c & Hc & HQ).
    rewrite (minimax_loop_step rec p x y cells s s1 best c Hset Hc Hback).
    destruct (IH (choose p (mkResult x y (score c)) best)) as (r & Hr & Hcases).
    { intros xy Hxy. apply Hincl. now right. }
    exists r. split; [exact Hr|].
    destruct Hcases as [-> | [Hin' HQ']].
    + unfold choose.
      destruct (p =? COMP); destruct (_ : bool); auto; right; split; auto; now left.
    + right. split; [now right|exact HQ'].
Qed.
End Loop.

(** ** The search leaves the board as it found it *)

Lemma minimax_restores (fuel : nat) :
  forall (s : board_t) (d p : Z) (s' : board_t) (r : SearchResult),
    minimax fuel s d p = Ret (s', r) -> s' = s.
Proof.
  induction fuel as [|fuel IH]; intros s d p s' r Hrun; [discriminate|].
  rewrite minimax_unfold in Hrun. apply bind_ret in Hrun.
  destruct Hrun as ([|] & _ & Hrun).
  - apply bind_ret in Hrun. destruct Hrun as (v & _ & Hrun). now injection Hrun as <- _.
  - apply minimax_loop_frame in Hrun; [exact Hrun| |apply incl_refl].
    intros s1 s2 c Hc. exact (IH _ _ _ _ _ Hc).
Qed.

Lemma minimax_total (fuel : nat) :
  forall (s : board_t) (d p : Z),
    grid s -> p <> 0 -> (count_empty s < fuel)%nat ->
    exists r, minimax fuel s d p = Ret (s, r).
Proof.
  induction fuel as [|fuel IH]; intros s d p Hg Hp Hfuel; [lia|].
  rewrite minimax_unfold.
  destruct (evaluate_total s Hg) as (v & Hv & _).
  destruct (game_over_total s Hg) as (t & Ht).
  assert (exists leaf, (if d =? 0 then Ret true else game_over s) = Ret leaf) as [leaf ->]
    by (destruct (d =? 0); eauto).
  cbn [bind]. destruct leaf.
  - rewrite Hv. cbn [bind]. eauto.
  - destruct (minimax_loop_run (fun s' => minimax fuel s' (d - 1) (- p)) p s
                (fun _ => True)) with (cells := empty_cells s) (best := init_best p)
      as (r & Hr & _); [|apply incl_refl|eauto].
    intros x y s1 Hin Hset.
    destruct (set_cell_place s x y p Hin) as (s1' & Hset' & _ & Hg1 & Hcount).
    rewrite Hset in Hset'. injection Hset' as <-.
    destruct (IH s1 (d - 1) (- p)) as (c & Hc); [auto|lia|specialize (Hcount Hp); lia|].
    eauto.
Qed.

(** ** More recursion budget never changes a result *)

Lemma minimax_loop_mono (rec rec' : board_t -> outcome (board_t * SearchResult))
    (p : Z) (cells : list (Z * Z)) :
  (forall s v, rec s = Ret v -> rec' s = Ret v) ->
  forall (s : board_t) (best : SearchResult) (v : board_t * SearchResult),
    minimax_loop rec p cells s best = Ret v ->
    minimax_loop rec' p cells s best = Ret v.
Proof.
  intros Hrec. induction cells as [|[x y] cells IH]; intros s best v Hrun; [exact Hrun|].
  cbn [minimax_loop] in *.
  apply bind_ret in Hrun. destruct Hrun as (s1 & -> & Hrun). cbn [bind].
  apply bind_ret in Hrun. destruct Hrun as ([s2 c] & Hc & Hrun).
  rewrite (Hrec _ _ Hc). cbn [bind].
  apply bind_ret in Hrun. destruct Hrun as (s3 & -> & Hrun). cbn [bind].
  now apply IH.
Qed.

Lemma minimax_fuel_mono (fuel : nat) :
  forall (fuel' : nat) (s : board_t) (d p : Z) (v : board_t * SearchResult),
    (fuel <= fuel')%nat ->
    minimax fuel s d p = Ret v -> minimax fuel' s d p = Ret v.
Proof.
  induction fuel as [|fuel IH]; intros fuel' s d p v Hle Hrun; [discriminate|].
  destruct fuel' as [|fuel']; [lia|].
  rewrite minimax_unfold in *.
  apply bind_ret in Hrun. destruct Hrun as (leaf & -> & Hrun). cbn [bind].
  destruct leaf; [exact Hrun|].
  revert Hrun. apply minimax_loop_mono.
  intros s1 v1 H1. apply (IH fuel'); [lia|exact H1].
Qed.

(** ** Scores within the depth budget *)

Lemma choose_sentinel (p x y : Z) (c : SearchResult) :
  finite_score c ->
  choose p (mkResult x y (score c)) (init_best p) = mkResult x y (score c).
Proof.
  intros (z & Hz & _). unfold choose, init_best.
  destruct (p =? COMP); cbn [score]; rewrite Hz; reflexivity.
Qed.

(** With [1 <= depth <= number of empty cells] every score met during the
    search is one of -1, 0, +1, and the move returned at a position that is
    not won is one of its empty cells. *)
Lemma minimax_finite (fuel : nat) :
  forall (s : board_t) (d p : Z),
    grid s -> p <> 0 -> 0 <= d <= Z.of_nat (count_empty s) ->
    (count_empty s < fuel)%nat ->
    exists r, minimax fuel s d p = Ret (s, r) /\ finite_score r /\
              (d <> 0 -> game_over s = Ret false ->
               In (row r, col r) (empty_cells s)).
Proof.
  induction fuel as [|fuel IH]; intros s d p Hg Hp Hd Hfuel; [lia|].
  rewrite minimax_unfold.
  destruct (evaluate_total s Hg) as (v & Hv & Hrange).
  destruct (game_over_total s Hg) as (t & Ht).
  destruct (Z.eqb_spec d 0) as [Hd0|Hd0].
  - cbn [bind]. rewrite Hv. cbn [bind]. eexists. split; [reflexivity|].
    split; [exists v; split; [reflexivity|lia]|]. intros Hne. contradiction.
  - rewrite Ht. cbn [bind]. destruct t.
    + rewrite Hv. cbn [bind]. eexists. split; [reflexivity|].
      split; [exists v; split; [reflexivity|lia]|]. discriminate.
    + destruct (empty_cells s) as [|[x y] cells] eqn:Hcells.
      { pose proof (length_empty_cells s) as Hlen. rewrite Hcells in Hlen.
        cbn in Hlen. lia. }
      assert (forall x' y' s1, In (x', y') (empty_cells s) ->
                set_cell s x' y' p = Ret s1 ->
                exists c, minimax fuel s1 (d - 1) (- p) = Ret (s1, c) /\
                          finite_score (mkResult x' y' (score c))) as Hrec.
      { intros x' y' s1 Hin Hset.
        destruct (set_cell_place s x' y' p Hin) as (s1' & Hset' & _ & Hg1 & Hcount).
        rewrite Hset in Hset'. injection Hset' as <-. specialize (Hcount Hp).
        destruct (IH s1 (d - 1) (- p)) as (c & Hc & Hfin & _); [auto|lia|lia|lia|].
        eauto. }
      assert (In (x, y) (empty_cells s)) as Hin by (rewrite Hcells; now left).
      destruct (set_cell_place s x y p Hin) as (s1 & Hset & Hback & _).
      destruct (Hrec x y s1 Hin Hset) as (c & Hc & Hfin).
      rewrite (minimax_loop_step _ p x y cells s s1 _ c Hset Hc Hback).
      rewrite (choose_sentinel p x y c Hfin).
      destruct (minimax_loop_run (fun s' => minimax fuel s' (d - 1) (- p)) p s
                  finite_score Hrec cells (mkResult x y (score c)))
        as (r & Hr & Hcases).
      { intros xy Hxy. rewrite Hcells. now right. }
      exists r. split; [exact Hr|].
      destruct Hcases as [-> | [Hin' Hfin']].
      * split; [exact Hfin|]. intros _ _. now left.
      * split; [exact Hfin'|]. intros _ _. now right.
Qed.

(** ** Bounding the score without walking the whole tree *)

Lemma any_true {A : Type} (f : A -> bool) (l : list A) :
  any f l = true -> exists a, In a l /\ f a = true.
Proof.
  induction l as [|a l IH]; cbn; [discriminate|].
  destruct (f a) eqn:E.
  - intros _. exists a. auto.
  - intros H. destruct (IH H) as (b & Hb & Hf). exists b. auto.
Qed.

Lemma all_true {A : Type} (f : A -> bool) (l : list A) :
  all f l = true -> forall a, In a l -> f a = true.
Proof.
  induction l as [|a l IH]; cbn; [intros _ b []|].
  destruct (f a) eqn:E; [|discriminate].
  intros H b [<-|Hb]; auto.
Qed.

Lemma value_leb_refl (a : value) : value_leb a a = true.
Proof.
  unfold value_leb. destruct a; cbn [value_ltb negb]; auto. now rewrite Z.ltb_irrefl.
Qed.

Lemma value_leb_trans (a b c : value) :
  value_leb a b = true -> value_leb b c = true -> value_leb a c = true.
Proof.
  unfold value_leb. destruct a, b, c; cbn [value_ltb negb]; try discriminate; auto.
  rewrite !negb_true_iff, !Z.ltb_ge. lia.
Qed.

Lemma value_leb_antisym (z : Z) (x : value) :
  value_leb (Fin z) x = true -> value_leb x (Fin z) = true -> x = Fin z.
Proof.
  unfold value_leb. destruct x; cbn [value_ltb negb]; try discriminate.
  rewrite !negb_true_iff, !Z.ltb_ge. intros. f_equal. lia.
Qed.

Lemma value_ltb_leb (a b : value) : value_ltb a b = true -> value_leb a b = true.
Proof.
  unfold value_leb. destruct a, b; cbn [value_ltb negb]; try discriminate; auto.
  rewrite negb_true_iff, Z.ltb_lt, Z.ltb_ge. lia.
Qed.

Lemma better_eq_trans (p : Z) (a b c : value) :
  better_eq p a b = true -> better_eq p b c = true -> better_eq p a c = true.
Proof.
  unfold better_eq. destruct (p =? COMP); eauto using value_leb_trans.
Qed.

Lemma choose_better_best (p : Z) (sc best : SearchResult) :
  better_eq p (score (choose p sc best)) (score best) = true.
Proof.
  unfold better_eq, choose, value_gtb. destruct (p =? COMP).
  - destruct (value_ltb (score best) (score sc)) eqn:E;
      [now apply value_ltb_leb | apply value_leb_refl].
  - destruct (value_ltb (score sc) (score best)) eqn:E;
      [now apply value_ltb_leb | apply value_leb_refl].
Qed.

Lemma choose_better_candidate (p : Z) (sc best : SearchResult) :
  better_eq p (score (choose p sc best)) (score sc) = true.
Proof.
  unfold better_eq, choose, value_gtb. destruct (p =? COMP).
  - destruct (value_ltb (score best) (score sc)) eqn:E; [apply value_leb_refl|].
    unfold value_leb. now rewrite E.
  - destruct (value_ltb (score sc) (score best)) eqn:E; [apply value_leb_refl|].
    unfold value_leb. now rewrite E.
Qed.

(** The result of the loop is at least as good, for the player to move, as
    the incoming [best] and as every candidate. *)
Lemma minimax_loop_best (rec : board_t -> outcome (board_t * SearchResult))
    (p : Z) (s : board_t) :
  (forall x y s1, In (x, y) (empty_cells s) -> set_cell s x y p = Ret s1 ->
     exists c, rec s1 = Ret (s1, c)) ->
  forall (cells : list (Z * Z)) (best : SearchResult),
    incl cells (empty_cells s) ->
    exists r, minimax_loop rec p cells s best = Ret (s, r) /\
      better_eq p (score r) (score best) = true /\
      (forall x y s1 c, In (x, y) cells -> set_cell s x y p = Ret s1 ->
         rec s1 = Ret (s1, c) -> better_eq p (score r) (score c) = true).
Proof.
  intros Hrec. induction cells as [|[x y] cells IH]; intros best Hincl.
  - exists best. split; [reflexivity|]. split; [|intros ? ? ? ? []].
    unfold better_eq. destruct (p =? COMP); apply value_leb_refl.
  - assert (In (x, y) (empty_cells s)) as Hin by (apply Hincl; now left).
    destruct (set_cell_place s x y p Hin) as (s1 & Hset & Hback & _).
    destruct (Hrec x y s1 Hin Hset) as (c & Hc).
    rewrite (minimax_loop_step rec p x y cells s s1 best c Hset Hc Hback).
    destruct (IH (choose p (mkResult x y (score c)) best)) as (r & Hr & Hbest & Hcand).
    { intros xy Hxy. apply Hincl. now right. }
    exists r. split; [exact Hr|]. split.
    + eapply better_eq_trans; [exact Hbest|apply choose_better_best].
    + intros x' y' s1' c' [Heq|Hin'] Hset' Hc'.
      * injection Heq as <- <-. rewrite Hset in Hset'. injection Hset' as <-.
        rewrite Hc in Hc'. injection Hc' as <-.
        eapply better_eq_trans; [exact Hbest|].
        apply (choose_better_candidate p (mkResult x y (score c)) best).
      * eapply Hcand; eauto.
Qed.

Lemma within_better (p : Z) (dir : bool) (v a b : value) :
  Bool.eqb (p =? COMP) dir = true ->
  better_eq p a b = true -> within dir v b = true -> within dir v a = true.
Proof.
  unfold better_eq, within. destruct (p =? COMP), dir; cbn; try discriminate;
    intros _ H1 H2; eauto using value_leb_trans.
Qed.

Lemma within_init_best (p : Z) (dir : bool) (v : value) :
  Bool.eqb (p =? COMP) dir = false -> within dir v (score (init_best p)) = true.
Proof.
  unfold within, init_best. destruct (p =? COMP), dir; cbn; try discriminate;
    intros _; now destruct v.
Qed.

Lemma check_sound (fuel : nat) :
  forall (dir : bool) (v : value) (s : board_t) (d p : Z),
    grid s -> p <> 0 -> (count_empty s < fuel)%nat ->
    check fuel dir v s d p = true ->
    exists r, minimax fuel s d p = Ret (s, r) /\ within dir v (score r) = true.
Proof.
  induction fuel as [|fuel IH]; intros dir v s d p Hg Hp Hfuel Hck; [lia|].
  rewrite minimax_unfold. cbn [check] in Hck.
  destruct (if d =? 0 then Ret true else game_over s) as [[|]| |]; try discriminate.
  - cbn [bind]. destruct (evaluate s) as [sc| |]; try discriminate.
    cbn [bind]. eauto.
  - cbn [bind].
    assert (forall x y s1, In (x, y) (empty_cells s) -> set_cell s x y p = Ret s1 ->
              grid s1 /\ - p <> 0 /\ (count_empty s1 < fuel)%nat) as Hchild.
    { intros x y s1 Hin Hset.
      destruct (set_cell_place s x y p Hin) as (s1' & Hset' & _ & Hg1 & Hcount).
      rewrite Hset in Hset'. injection Hset' as <-. specialize (Hcount Hp).
      split; [exact (Hg1 Hg)|]. split; lia. }
    destruct (Bool.eqb (p =? COMP) dir) eqn:Hdir.
    + apply any_true in Hck. destruct Hck as ([x y] & Hin & Hck). cbn [fst snd] in Hck.
      destruct (set_cell s x y p) as [s1| |] eqn:Hset; try discriminate.
      destruct (Hchild x y s1 Hin Hset) as (Hg1 & Hp1 & Hf1).
      destruct (IH dir v s1 (d - 1) (- p) Hg1 Hp1 Hf1 Hck) as (c & Hc & Hwc).
      destruct (minimax_loop_best (fun s' => minimax fuel s' (d - 1) (- p)) p s)
        with (cells := empty_cells s) (best := init_best p)
        as (r & Hr & _ & Hcand); [|apply incl_refl|].
      { intros x' y' s1' Hin' Hset'.
        destruct (Hchild x' y' s1' Hin' Hset') as (Hg' & Hp' & Hf').
        exact (minimax_total fuel s1' (d - 1) (- p) Hg' Hp' Hf'). }
      exists r. split; [exact Hr|].
      eapply within_better; [exact Hdir| |exact Hwc].
      exact (Hcand x y s1 c Hin Hset Hc).
    + destruct (minimax_loop_run (fun s' => minimax fuel s' (d - 1) (- p)) p s
                  (fun r => within dir v (score r) = true))
        with (cells := empty_cells s) (best := init_best p)
        as (r & Hr & Hcases); [|apply incl_refl|].
      { intros x y s1 Hin Hset.
        destruct (Hchild x y s1 Hin Hset) as (Hg1 & Hp1 & Hf1).
        pose proof (all_true _ _ Hck (x, y) Hin) as Hxy. cbn [fst snd] in Hxy.
        rewrite Hset in Hxy.
        exact (IH dir v s1 (d - 1) (- p) Hg1 Hp1 Hf1 Hxy). }
      exists r. split; [exact Hr|].
      destruct Hcases as [-> | [_ Hw]]; [|exact Hw].
      now apply within_init_best.
Qed.

(** ** The minimax engine *)

(** C1: whatever the board, the depth and the player, a call of [minimax]
    that returns hands back the board it was given; and on a three-by-three
    board, for a player mark, it does return as soon as the recursion budget
    exceeds the number of empty cells. *)
Theorem minimax_board_unchanged (fuel : nat) (s : board_t) (d p : Z) :
  (forall s' r, minimax fuel s d p = Ret (s', r) -> s' = s) /\
  (grid s -> p <> EMPTY -> (count_empty s < fuel)%nat ->
   exists r, minimax fuel s d p = Ret (s, r)).
Proof.
  split.
  - intros s' r. apply minimax_restores.
  - apply minimax_total.
Qed.

Lemma minimax_board_unchanged_witness :
  exists r, minimax 6 [[1; 1; 0]; [-1; -1; 0]; [0; 0; 0]] (-4) HUMAN =
            Ret ([[1; 1; 0]; [-1; -1; 0]; [0; 0; 0]], r).
Proof.
  apply (minimax_board_unchanged 6 [[1; 1; 0]; [-1; -1; 0]; [0; 0; 0]] (-4) HUMAN).
  - apply grid_intro.
  - discriminate.
  - cbn. lia.
Defined.

(** C2, as stated, fails: a full board without a line, searched with depth
    1, does not give the leaf result [(-1, -1, evaluate state)] but the
    initial [best] with its infinite score. *)
Lemma minimax_full_board_not_leaf :
  empty_cells [[1; -1; 1]; [1; -1; -1]; [-1; 1; 1]] = [] /\
  evaluate [[1; -1; 1]; [1; -1; -1]; [-1; 1; 1]] = Ret 0 /\
  minimax 10 [[1; -1; 1]; [1; -1; -1]; [-1; 1; 1]] 1 COMP =
    Ret ([[1; -1; 1]; [1; -1; -1]; [-1; 1; 1]], mkResult (-1) (-1) NegInf) /\
  minimax 10 [[1; -1; 1]; [1; -1; -1]; [-1; 1; 1]] 1 COMP <>
    Ret ([[1; -1; 1]; [1; -1; -1]; [-1; 1; 1]], mkResult (-1) (-1) (Fin 0)).
Proof.
  split; [reflexivity|]. split; [reflexivity|]. split; [reflexivity|].
  vm_compute. discriminate.
Qed.

(** C2, amended: on a three-by-three board, at depth 0 or when a side
    already has a line, [minimax] returns the leaf result
    [(-1, -1, evaluate state)] without raising.  A board without empty cells
    on which nobody has a line, searched with a depth other than 0, returns
    without raising the untouched initial [best]: [(-1, -1, -inf)] for COMP
    and [(-1, -1, +inf)] otherwise. *)
Theorem minimax_leaf_return (fuel : nat) (s : board_t) (d p : Z) :
  grid s ->
  (d = 0 \/ game_over s = Ret true ->
   exists v, evaluate s = Ret v /\
             minimax (S fuel) s d p = Ret (s, mkResult (-1) (-1) (Fin v))) /\
  (d <> 0 -> game_over s = Ret false -> empty_cells s = [] ->
   minimax (S fuel) s d p =
     Ret (s, mkResult (-1) (-1) (if p =? COMP then NegInf else PosInf))).
Proof.
  intros Hg. rewrite minimax_unfold.
  destruct (evaluate_total s Hg) as (v & Hv & _). split.
  - intros Hleaf. exists v. split; [exact Hv|].
    assert ((if d =? 0 then Ret true else game_over s) = Ret true) as ->.
    { destruct Hleaf as [-> | Hover]; [reflexivity|]. now destruct (d =? 0). }
    cbn [bind]. now rewrite Hv.
  - intros Hd Hover Hfull.
    destruct (Z.eqb_spec d 0) as [|_]; [contradiction|].
    rewrite Hover, Hfull. cbn [bind minimax_loop]. unfold init_best.
    now destruct (p =? COMP).
Qed.

Lemma minimax_leaf_return_witness :
  minimax 1 [[1; -1; 1]; [1; -1; -1]; [-1; 1; 1]] 3 HUMAN =
    Ret ([[1; -1; 1]; [1; -1; -1]; [-1; 1; 1]], mkResult (-1) (-1) PosInf) /\
  exists v, evaluate [[1; 1; 1]; [-1; -1; 0]; [0; 0; 0]] = Ret v /\
            minimax 1 [[1; 1; 1]; [-1; -1; 0]; [0; 0; 0]] 4 HUMAN =
              Ret ([[1; 1; 1]; [-1; -1; 0]; [0; 0; 0]], mkResult (-1) (-1) (Fin v)).
Proof.
  split.
  - apply (minimax_leaf_return 0 [[1; -1; 1]; [1; -1; -1]; [-1; 1; 1]] 3 HUMAN).
    + apply grid_intro.
    + discriminate.
    + reflexivity.
    + reflexivity.
  - apply (minimax_leaf_return 0 [[1; 1; 1]; [-1; -1; 0]; [0; 0; 0]] 4 HUMAN).
    + apply grid_intro.
    + right. reflexivity.
Defined.

(** C3, as stated, fails.  At depth 0 the empty board, which is not won and
    has nine empty cells, gives the coordinates [(-1, -1)]; and with a depth
    larger than the number of empty cells a position whose continuations all
    fill the board without a line gives [(-1, -1)] as well. *)
Lemma minimax_move_not_valid :
  (game_over board = Ret false /\ empty_cells board <> [] /\
   minimax 10 board 0 COMP = Ret (board, mkResult (-1) (-1) (Fin 0)) /\
   valid_move board (-1) (-1) = false) /\
  (game_over [[0; 0; 1]; [1; -1; -1]; [-1; 1; 1]] = Ret false /\
   empty_cells [[0; 0; 1]; [1; -1; -1]; [-1; 1; 1]] = [(0, 0); (0, 1)] /\
   minimax 10 [[0; 0; 1]; [1; -1; -1]; [-1; 1; 1]] 3 COMP =
     Ret ([[0; 0; 1]; [1; -1; -1]; [-1; 1; 1]], mkResult (-1) (-1) NegInf) /\
   valid_move [[0; 0; 1]; [1; -1; -1]; [-1; 1; 1]] (-1) (-1) = false).
Proof.
  split.
  - split; [reflexivity|]. split; [discriminate|]. split; reflexivity.
  - split; [reflexivity|]. split; [reflexivity|]. split; reflexivity.
Qed.

(** C3, amended: on a three-by-three board that is not won, searched for a
    player mark with [1 <= depth <= number of empty cells], [minimax] returns
    coordinates for which [valid_move] holds on that board. *)
Theorem minimax_move_valid (fuel : nat) (s : board_t) (d p : Z) :
  grid s -> p <> EMPTY -> game_over s = Ret false ->
  1 <= d <= Z.of_nat (count_empty s) -> (count_empty s < fuel)%nat ->
  exists r, minimax fuel s d p = Ret (s, r) /\
            valid_move s (row r) (col r) = true.
Proof.
  intros Hg Hp Hover Hd Hfuel.
  destruct (minimax_finite fuel s d p Hg Hp) as (r & Hr & _ & Hin); [lia|exact Hfuel|].
  exists r. split; [exact Hr|]. apply valid_move_spec. apply Hin; [lia|exact Hover].
Qed.

Lemma minimax_move_valid_witness :
  exists r, minimax 10 [[-1; -1; 0]; [0; 1; 0]; [0; 0; 0]] 6 COMP =
              Ret ([[-1; -1; 0]; [0; 1; 0]; [0; 0; 0]], r) /\
            valid_move [[-1; -1; 0]; [0; 1; 0]; [0; 0; 0]] (row r) (col r) = true.
Proof.
  apply (minimax_move_valid 10 [[-1; -1; 0]; [0; 1; 0]; [0; 0; 0]] 6 COMP).
  - apply grid_intro.
  - discriminate.
  - reflexivity.
  - cbn. lia.
  - cbn. lia.
Defined.

(** C4: from the all-empty board, with depth 9 and COMP to move, [minimax]
    returns a result whose score is 0, for every recursion budget of at least
    ten calls. *)
Theorem minimax_empty_board_draw (fuel : nat) :
  (10 <= fuel)%nat ->
  exists r, minimax fuel board 9 COMP = Ret (board, r) /\ score r = Fin 0.
Proof.
  intros Hfuel.
  assert (grid board) as Hg by apply grid_intro.
  assert (COMP <> 0) as Hp by discriminate.
  assert (count_empty board < 10)%nat as Hc by (cbn; lia).
  destruct (check_sound 10 true (Fin 0) board 9 COMP Hg Hp Hc) as (r & Hr & Hlo);
    [vm_compute; reflexivity|].
  destruct (check_sound 10 false (Fin 0) board 9 COMP Hg Hp Hc) as (r' & Hr' & Hhi);
    [vm_compute; reflexivity|].
  rewrite Hr in Hr'. injection Hr' as <-.
  exists r. split.
  - apply (minimax_fuel_mono 10); [exact Hfuel|exact Hr].
  - apply value_leb_antisym; [exact Hlo|exact Hhi].
Qed.

Lemma minimax_empty_board_draw_witness :
  exists r, minimax 10 board 9 COMP = Ret (board, r) /\ score r = Fin 0.
Proof.
  apply (minimax_empty_board_draw 10). lia.
Defined.

(** C5: on the board with COMP on (0,0), (0,1) and HUMAN on (1,0), (1,1),
    [minimax] with depth 7 for COMP returns the move (0,2) with score +1, for
    every recursion budget of at least six calls. *)
Theorem minimax_completes_row (fuel : nat) :
  (6 <= fuel)%nat ->
  minimax fuel [[COMP; COMP; EMPTY]; [HUMAN; HUMAN; EMPTY]; [EMPTY; EMPTY; EMPTY]]
          7 COMP =
  Ret ([[COMP; COMP; EMPTY]; [HUMAN; HUMAN; EMPTY]; [EMPTY; EMPTY; EMPTY]],
       mkResult 0 2 (Fin 1)).
Proof.
  intros Hfuel. apply (minimax_fuel_mono 6); [exact Hfuel|].
  vm_compute. reflexivity.
Qed.

Lemma minimax_completes_row_witness :
  minimax 6 [[1; 1; 0]; [-1; -1; 0]; [0; 0; 0]] 7 COMP =
  Ret ([[1; 1; 0]; [-1; -1; 0]; [0; 0; 0]], mkResult 0 2 (Fin 1)).
Proof.
  apply (minimax_completes_row 6). lia.
Defined.

(** * Further properties of the core *)

(** ** Subscripts from the front, in and out of range *)

Lemma getitem_nonneg {A : Type} (l : list A) (i : Z) :
  0 <= i ->
  getitem l i = match l !! Z.to_nat i with Some a => Ret a | None => IndexError end.
Proof.
  intros Hi. destruct (l !! Z.to_nat i) as [a|] eqn:E.
  - exact (getitem_front l i a Hi E).
  - apply lookup_ge_None in E. unfold getitem, py_index.
    replace (i <? Z.of_nat (length l)) with false by (symmetry; apply Z.ltb_ge; lia).
    replace (i <? 0) with false by (symmetry; apply Z.ltb_ge; lia).
    now rewrite !andb_false_r.
Qed.

Lemma cell_nonneg (s : board_t) (x y : Z) :
  0 <= x -> 0 <= y ->
  cell s x y =
  match s !! Z.to_nat x with
  | Some r => match r !! Z.to_nat y with Some c => Ret c | None => IndexError end
  | None => IndexError
  end.
Proof.
  intros Hx Hy. unfold cell. rewrite (getitem_nonneg s x Hx).
  destruct (s !! Z.to_nat x) as [r|]; [|reflexivity]. cbn [bind].
  exact (getitem_nonneg r y Hy).
Qed.

(** ** The list of empty cells *)

Lemma in_row_cells (x j a b : Z) (r : list Z) :
  In (a, b) (flat_map (fun yc : Z * Z => if yc.2 =? 0 then [(x, yc.1)] else [])
                      (enumerate_from j r)) ->
  a = x /\ j <= b.
Proof.
  intros Hin. apply in_flat_map in Hin. destruct Hin as ([y c] & Hyc & Hin).
  apply in_enumerate_from in Hyc. cbn [fst snd] in Hin.
  destruct (c =? 0); [|contradiction]. destruct Hin as [Heq|[]].
  injection Heq as <- <-. split; [reflexivity|tauto].
Qed.

Lemma row_cells_sorted (x : Z) (r : list Z) :
  forall j : Z,
    StronglySorted row_major
      (flat_map (fun yc : Z * Z => if yc.2 =? 0 then [(x, yc.1)] else [])
                (enumerate_from j r)).
Proof.
  induction r as [|c r IH]; intros j; cbn [enumerate_from flat_map]; [constructor|].
  apply StronglySorted_app_2; [| |apply IH].
  - intros [a1 b1] [a2 b2] H1 H2. cbn [fst snd] in H1.
    destruct (c =? 0); [|inversion H1].
    apply list_elem_of_In in H1, H2. destruct H1 as [Heq|[]]. injection Heq as <- <-.
    apply in_row_cells in H2. right. cbn. lia.
  - cbn [fst snd]. destruct (c =? 0); repeat constructor.
Qed.

Lemma in_cells_from (i a b : Z) (s : board_t) :
  In (a, b) (flat_map (fun xr : Z * list Z =>
               flat_map (fun yc : Z * Z => if yc.2 =? 0 then [(xr.1, yc.1)] else [])
                        (enumerate xr.2))
             (enumerate_from i s)) ->
  i <= a.
Proof.
  intros Hin. apply in_flat_map in Hin. destruct Hin as ([x r] & Hxr & Hin).
  apply in_enumerate_from in Hxr. apply in_row_cells in Hin. cbn [fst] in Hin. lia.
Qed.

Lemma cells_from_sorted (s : board_t) :
  forall i : Z,
    StronglySorted row_major
      (flat_map (fun xr : Z * list Z =>
         flat_map (fun yc : Z * Z => if yc.2 =? 0 then [(xr.1, yc.1)] else [])
                  (enumerate xr.2))
       (enumerate_from i s)).
Proof.
  induction s as [|r s IH]; intros i; cbn [enumerate_from flat_map]; [constructor|].
  apply StronglySorted_app_2; [|apply row_cells_sorted|apply IH].
  intros [a1 b1] [a2 b2] H1 H2. apply list_elem_of_In in H1, H2.
  apply in_row_cells in H1. apply in_cells_from in H2. left. cbn in *. lia.
Qed.

(** X1: whatever the shape of the board, [empty_cells] lists exactly the
    coordinates, counted from 0, whose cell reads 0, and lists them in
    strictly increasing row-major order (so none twice). *)
Theorem empty_cells_exact_row_major (s : board_t) :
  (forall x y : Z,
     In (x, y) (empty_cells s) <-> 0 <= x /\ 0 <= y /\ cell s x y = Ret 0) /\
  StronglySorted row_major (empty_cells s).
Proof.
  split; [|apply cells_from_sorted].
  intros x y. rewrite in_empty_cells. split.
  - intros (Hx & Hy & r & Hr & Hc). repeat split; auto.
    exact (cell_front s x y r 0 Hx Hy Hr Hc).
  - intros (Hx & Hy & Hc). repeat split; auto.
    rewrite (cell_nonneg s x y Hx Hy) in Hc.
    destruct (s !! Z.to_nat x) as [r|]; [|discriminate]. exists r. split; [reflexivity|].
    destruct (r !! Z.to_nat y) as [c|]; [|discriminate]. now injection Hc as ->.
Qed.

(** ** Moves on boards of any shape *)

Lemma set_move_true_inv (b b' : board_t) (x y p : Z) :
  set_move b x y p = Ret (b', true) ->
  In (x, y) (empty_cells b) /\ set_cell b x y p = Ret b'.
Proof.
  unfold set_move. destruct (valid_move b x y) eqn:Hv; [|discriminate].
  intros Hrun. apply valid_move_spec in Hv. split; [exact Hv|].
  destruct (set_cell b x y p) as [b1| |]; try discriminate. now injection Hrun as ->.
Qed.


(** X2: [set_move] never raises, whatever the shape of the board and the
    coordinates: it either refuses, leaving the board as it is, or accepts a
    move that [valid_move] allows. *)
Theorem set_move_never_raises (b : board_t) (x y p : Z) :
  (valid_move b x y = false /\ set_move b x y p = Ret (b, false)) \/
  (valid_move b x y = true /\ exists b', set_move b x y p = Ret (b', true)).
Proof.
  unfold set_move. destruct (valid_move b x y) eqn:Hv; [right|left; auto].
  split; [reflexivity|]. apply valid_move_spec in Hv.
  destruct (set_cell_empty b x y p Hv) as (r & _ & _ & ->). cbn [bind]. eauto.
Qed.

(** X3: once [set_move] has accepted a player's mark on a cell, the cell is
    taken: a second [set_move] on the same coordinates is refused and changes
    nothing, the board has exactly one empty cell less, and its empty cells
    are those of the old board without the one just played. *)
Theorem set_move_takes_cell (b b' : board_t) (x y p q : Z) :
  p <> 0 ->
  set_move b x y p = Ret (b', true) ->
  set_move b' x y q = Ret (b', false) /\
  S (length (empty_cells b')) = length (empty_cells b) /\
  (forall x' y' : Z,
     In (x', y') (empty_cells b') <->
     In (x', y') (empty_cells b) /\ (x', y') <> (x, y)).
Proof.
  intros Hp Hrun. apply set_move_true_inv in Hrun. destruct Hrun as [Hin Hset].
  destruct (set_cell_place b x y p Hin) as (b1 & Hset1 & _ & _ & Hcount).
  rewrite Hset in Hset1. injection Hset1 as <-.
  destruct (set_cell_empty b x y p Hin) as (r & Hr & Hc & Hset2).
  rewrite Hset in Hset2. injection Hset2 as ->.
  pose proof Hin as Hin0. apply in_empty_cells in Hin0. destruct Hin0 as (Hx & Hy & _).
  assert (Z.to_nat x < length b)%nat as Hlx by (now apply lookup_lt_Some in Hr).
  assert (Z.to_nat y < length r)%nat as Hly by (now apply lookup_lt_Some in Hc).
  assert (forall x' y' : Z,
            In (x', y') (empty_cells (<[Z.to_nat x := <[Z.to_nat y := p]> r]> b)) <->
            In (x', y') (empty_cells b) /\ (x', y') <> (x, y)) as Hmem.
  { intros x' y'. rewrite !in_empty_cells. split.
    - intros (Hx' & Hy' & r' & Hr' & Hc').
      destruct (decide (Z.to_nat x = Z.to_nat x')) as [Hex|Hex].
      + rewrite <- Hex in Hr'. rewrite list_lookup_insert_eq in Hr' by exact Hlx.
        injection Hr' as <-.
        destruct (decide (Z.to_nat y = Z.to_nat y')) as [Hey|Hey].
        * rewrite <- Hey in Hc'. rewrite list_lookup_insert_eq in Hc' by exact Hly.
          congruence.
        * rewrite list_lookup_insert_ne in Hc' by exact Hey.
          split; [|intros Heq; injection Heq as -> ->; now apply Hey].
          repeat split; auto. exists r. rewrite <- Hex. auto.
      + rewrite list_lookup_insert_ne in Hr' by exact Hex.
        split; [|intros Heq; injection Heq as -> ->; now apply Hex].
        repeat split; auto. eauto.
    - intros ((Hx' & Hy' & r' & Hr' & Hc') & Hne). repeat split; auto.
      destruct (decide (Z.to_nat x = Z.to_nat x')) as [Hex|Hex].
      + rewrite <- Hex in *. rewrite Hr in Hr'. injection Hr' as <-.
        exists (<[Z.to_nat y := p]> r). split; [now apply list_lookup_insert_eq|].
        rewrite list_lookup_insert_ne; [exact Hc'|].
        intros Hey. apply Hne. f_equal; lia.
      + exists r'. split; [|exact Hc']. now rewrite list_lookup_insert_ne. }
  split; [|split].
  - unfold set_move.
    destruct (valid_move (<[Z.to_nat x := <[Z.to_nat y := p]> r]> b) x y) eqn:Hv;
      [|reflexivity].
    apply valid_move_spec, Hmem in Hv. now destruct Hv as [_ Hne].
  - rewrite !length_empty_cells. exact (Hcount Hp).
  - exact Hmem.
Qed.

Lemma set_move_takes_cell_witness :
  set_move [[1; 0]; [0; 0; -1]] 1 0 1 = Ret ([[1; 0]; [1; 0; -1]], true) /\
  set_move [[1; 0]; [1; 0; -1]] 1 0 (-1) = Ret ([[1; 0]; [1; 0; -1]], false).
Proof.
  split; [reflexivity|].
  apply (set_move_takes_cell [[1; 0]; [0; 0; -1]] [[1; 0]; [1; 0; -1]] 1 0 1 (-1)).
  - discriminate.
  - reflexivity.
Defined.

(** ** The win test on boards of any shape *)

Lemma mapM_cons {A B : Type} (f : A -> outcome B) (a : A) (l : list A) :
  mapM f (a :: l) = (b <- f a ;; bs <- mapM f l ;; Ret (b :: bs)).
Proof. reflexivity. Qed.

Lemma covers3_cells (s : board_t) :
  covers3 s ->
  exists a b c d e f g h i rest0 rest1 rest2 rest,
    s = (a :: b :: c :: rest0) :: (d :: e :: f :: rest1) :: (g :: h :: i :: rest2) :: rest.
Proof.
  intros H.
  destruct (H 0%nat 2%nat) as (r0 & c0 & Hr0 & Hc0); [lia|lia|].
  destruct (H 1%nat 2%nat) as (r1 & c1 & Hr1 & Hc1); [lia|lia|].
  destruct (H 2%nat 2%nat) as (r2 & c2 & Hr2 & Hc2); [lia|lia|].
  destruct s as [|r0' [|r1' [|r2' rest]]]; try discriminate.
  cbn in Hr0, Hr1, Hr2. injection Hr0 as ->. injection Hr1 as ->. injection Hr2 as ->.
  destruct r0 as [|a [|b [|c rest0]]]; try discriminate.
  destruct r1 as [|d [|e [|f rest1]]]; try discriminate.
  destruct r2 as [|g [|h [|i rest2]]]; try discriminate.
  repeat eexists.
Qed.

Lemma win_state_block (a b c d e f g h i : Z) (rest0 rest1 rest2 : list Z)
    (rest : board_t) :
  win_state
    ((a :: b :: c :: rest0) :: (d :: e :: f :: rest1) :: (g :: h :: i :: rest2) :: rest) =
  win_state [[a; b; c]; [d; e; f]; [g; h; i]].
Proof.
  rewrite win_state_grid. unfold win_state, win_lines.
  repeat (rewrite mapM_cons; cbn [fst snd]).
  rewrite !cell_nonneg by lia. reflexivity.
Qed.

(** X4: [wins] reads the nine cells [state[0..2][0..2]] and nothing else.
    On a board that has them it returns, with the answer of the three-by-three
    block, whatever further rows and columns there are; on a board that lacks
    one of them it raises [IndexError]. *)
Theorem wins_reads_three_by_three (s : board_t) (p : Z) :
  (covers3 s ->
   exists a b c d e f g h i,
     (forall x y : Z, 0 <= x < 3 -> 0 <= y < 3 ->
        cell s x y = cell [[a; b; c]; [d; e; f]; [g; h; i]] x y) /\
     wins s p = wins [[a; b; c]; [d; e; f]; [g; h; i]] p /\
     exists w, wins s p = Ret w) /\
  (~ covers3 s -> wins s p = IndexError).
Proof.
  split.
  - intros Hc. apply covers3_cells in Hc.
    destruct Hc as (a & b & c & d & e & f & g & h & i & r0 & r1 & r2 & rest & ->).
    exists a, b, c, d, e, f, g, h, i. split; [|split].
    + intros x y Hx Hy.
      destruct (index_cases x Hx) as [-> | [-> | ->]];
        destruct (index_cases y Hy) as [-> | [-> | ->]];
        rewrite cell_nonneg by lia; reflexivity.
    + unfold wins. now rewrite win_state_block.
    + unfold wins. rewrite win_state_block.
      exact (wins_total _ p (grid_intro a b c d e f g h i)).
  - intros Hn. unfold wins, win_state, win_lines.
    repeat (rewrite mapM_cons; cbn [fst snd]).
    rewrite !cell_nonneg by lia.
    change (Z.to_nat 0) with 0%nat. change (Z.to_nat 1) with 1%nat.
    change (Z.to_nat 2) with 2%nat.
    destruct (s !! 0%nat) as [r0|] eqn:E0; [|reflexivity].
    destruct (r0 !! 0%nat) as [a|] eqn:E00; [|reflexivity].
    destruct (r0 !! 1%nat) as [b|] eqn:E01; [|reflexivity].
    destruct (r0 !! 2%nat) as [c|] eqn:E02; [|reflexivity].
    destruct (s !! 1%nat) as [r1|] eqn:E1; [|reflexivity].
    destruct (r1 !! 0%nat) as [d|] eqn:E10; [|reflexivity].
    destruct (r1 !! 1%nat) as [e|] eqn:E11; [|reflexivity].
    destruct (r1 !! 2%nat) as [f|] eqn:E12; [|reflexivity].
    destruct (s !! 2%nat) as [r2|] eqn:E2; [|reflexivity].
    destruct (r2 !! 0%nat) as [g|] eqn:E20; [|reflexivity].
    destruct (r2 !! 1%nat) as [h|] eqn:E21; [|reflexivity].
    destruct (r2 !! 2%nat) as [i|] eqn:E22; [|reflexivity].
    contradiction Hn. intros x y Hx Hy.
    destruct x as [|[|[|x]]]; [| | |lia];
      destruct y as [|[|[|y]]]; try lia; eauto.
Qed.

Lemma wins_reads_three_by_three_witness :
  exists w, wins [[1; 1; 1; 0]; [0; -1; 0; 0]; [-1; 0; 0; 0]; [5; 5; 5; 5]] 5 = Ret w.
Proof.
  destruct (proj1 (wins_reads_three_by_three
                     [[1; 1; 1; 0]; [0; -1; 0; 0]; [-1; 0; 0; 0]; [5; 5; 5; 5]] 5))
    as (a & b & c & d & e & f & g & h & i & _ & _ & Hw).
  - intros x y Hx Hy.
    destruct x as [|[|[|x]]]; [| | |lia];
      destruct y as [|[|[|y]]]; try lia; cbn; eauto.
  - exact Hw.
Defined.

(** ** Lines and moves *)

Lemma line3_other_1 (q p y z : Z) : q <> p -> line3 q p y z = false.
Proof. intros H. unfold line3. now destruct (Z.eqb_spec q p). Qed.

Lemma line3_other_2 (q p x z : Z) : q <> p -> line3 q x p z = false.
Proof.
  intros H. unfold line3. destruct (Z.eqb_spec q p); [contradiction|].
  now rewrite andb_false_r.
Qed.

Lemma line3_other_3 (q p x y : Z) : q <> p -> line3 q x y p = false.
Proof.
  intros H. unfold line3. destruct (Z.eqb_spec q p); [contradiction|].
  now rewrite !andb_false_r.
Qed.

Lemma no_other_line (b b' : board_t) (x y p q : Z) :
  grid b -> q <> p ->
  set_move b x y p = Ret (b', true) ->
  wins b q = Ret false -> wins b' q = Ret false.
Proof.
  intros Hg Hqp Hrun Hq. apply set_move_true_inv in Hrun. destruct Hrun as [Hin Hset].
  apply valid_move_spec, (valid_move_grid b x y Hg) in Hin.
  destruct Hin as (Hx & Hy & _).
  grid_cases Hg. rewrite wins_grid in Hq. apply Ret_inj in Hq.
  destruct (index_cases x Hx) as [-> | [-> | ->]];
    destruct (index_cases y Hy) as [-> | [-> | ->]];
    vm_compute in Hset; injection Hset as <-; rewrite wins_grid; f_equal;
    rewrite ?(line3_other_1 q p), ?(line3_other_2 q p), ?(line3_other_3 q p) by exact Hqp;
    repeat match type of Hq with
           | context [line3 ?u ?v ?w ?t] =>
               destruct (line3 u v w t); cbn [orb] in Hq; try discriminate
           end;
    reflexivity.
Qed.

(** X5: a move never completes a line for anybody else.  If [q] has no line
    on a three-by-three board and [set_move] accepts a mark [p] other than
    [q], then [q] still has no line afterwards.  In particular, after a move
    by HUMAN or COMP made while the game is not over, the side that did not
    move has no line, so at most one side ever has one. *)
Theorem move_completes_no_other_line (b b' : board_t) (x y p : Z) :
  grid b -> set_move b x y p = Ret (b', true) ->
  (forall q, q <> p -> wins b q = Ret false -> wins b' q = Ret false) /\
  (game_over b = Ret false -> p = HUMAN \/ p = COMP -> wins b' (- p) = Ret false).
Proof.
  intros Hg Hrun. split.
  - intros q Hq. exact (no_other_line b b' x y p q Hg Hq Hrun).
  - intros Hover Hp. apply (no_other_line b b' x y p (- p) Hg); [|exact Hrun|].
    + destruct Hp as [-> | ->]; discriminate.
    + unfold game_over in Hover.
      destruct (wins_total b HUMAN Hg) as [wh Hh], (wins_total b COMP Hg) as [wc Hc].
      rewrite Hh in Hover. cbn [bind] in Hover. destruct wh; [discriminate|].
      destruct Hp as [-> | ->].
      * change (- HUMAN) with COMP. congruence.
      * change (- COMP) with HUMAN. exact Hh.
Qed.

Lemma move_completes_no_other_line_witness :
  wins [[1; 1; 0]; [-1; -1; 1]; [0; 0; 0]] HUMAN = Ret false.
Proof.
  apply (move_completes_no_other_line
           [[1; 1; 0]; [-1; -1; 0]; [0; 0; 0]] _ 1 2 COMP).
  - apply grid_intro.
  - reflexivity.
  - reflexivity.
  - now right.
Defined.

(** ** Which candidate the loop keeps *)

Lemma value_ltb_trans (a b c : value) :
  value_ltb a b = true -> value_ltb b c = true -> value_ltb a c = true.
Proof.
  destruct a, b, c; cbn [value_ltb]; try discriminate; auto.
  rewrite !Z.ltb_lt. lia.
Qed.

Lemma value_ltb_le_trans (a b c : value) :
  value_ltb b a = false -> value_ltb b c = true -> value_ltb a c = true.
Proof.
  destruct a, b, c; cbn [value_ltb]; try discriminate; auto.
  rewrite Z.ltb_ge, !Z.ltb_lt. lia.
Qed.

Lemma value_le_ltb_trans (a b c : value) :
  value_ltb a b = true -> value_ltb c b = false -> value_ltb a c = true.
Proof.
  destruct a, b, c; cbn [value_ltb]; try discriminate; auto.
  rewrite Z.ltb_ge, !Z.ltb_lt. lia.
Qed.

Lemma beats_trans (p : Z) (a b c : value) :
  beats p a b = true -> beats p b c = true -> beats p a c = true.
Proof.
  unfold beats, value_gtb. destruct (p =? COMP); eauto using value_ltb_trans.
Qed.

(** [a] beats [b] and [c] does not beat [b]: then [a] beats [c]. *)
Lemma beats_over (p : Z) (a b c : value) :
  beats p a b = true -> beats p c b = false -> beats p a c = true.
Proof.
  unfold beats, value_gtb. destruct (p =? COMP); intros H1 H2.
  - exact (value_ltb_le_trans c b a H2 H1).
  - exact (value_le_ltb_trans a b c H1 H2).
Qed.

(** [c] does not beat [b] and [a] beats [b]... the other way round: nothing
    that fails to beat [b] beats something that beats [b]. *)
Lemma beats_under (p : Z) (a b c : value) :
  beats p a b = true -> beats p c b = false -> beats p c a = false.
Proof.
  intros H1 H2. destruct (beats p c a) eqn:E; [|reflexivity].
  rewrite (beats_trans p c a b E H1) in H2. discriminate.
Qed.

Lemma choose_beats (p : Z) (sc best : SearchResult) :
  choose p sc best = if beats p (score sc) (score best) then sc else best.
Proof. unfold choose, beats. now destruct (p =? COMP). Qed.

(** The loop returns the incoming [best] when no candidate beats it, and
    otherwise the first candidate, in the order of the list, that beats
    [best] and that no later one beats. *)
Lemma minimax_loop_first_best (rec : board_t -> outcome (board_t * SearchResult))
    (p : Z) (s : board_t) (g : Z * Z -> value) :
  (forall x y, In (x, y) (empty_cells s) ->
     exists s1 c, set_cell s x y p = Ret s1 /\ rec s1 = Ret (s1, c) /\
                  score c = g (x, y)) ->
  forall (cells : list (Z * Z)) (best : SearchResult),
    incl cells (empty_cells s) ->
    exists r, minimax_loop rec p cells s best = Ret (s, r) /\
      ((r = best /\ forall xy, In xy cells -> beats p (g xy) (score best) = false) \/
       (exists l1 l2,
          cells = l1 ++ (row r, col r) :: l2 /\
          score r = g (row r, col r) /\
          beats p (score r) (score best) = true /\
          (forall xy, In xy l1 -> beats p (score r) (g xy) = true) /\
          (forall xy, In xy l2 -> beats p (g xy) (score r) = false))).
Proof.
  intros Hrec. induction cells as [|[x y] cells IH]; intros best Hincl.
  - exists best. split; [reflexivity|]. left. split; [reflexivity|intros ? []].
  - assert (In (x, y) (empty_cells s)) as Hin by (apply Hincl; now left).
    destruct (Hrec x y Hin) as (s1 & c & Hset & Hc & Hg).
    destruct (set_cell_place s x y p Hin) as (s1' & Hset' & Hback & _).
    rewrite Hset in Hset'. injection Hset' as <-.
    rewrite (minimax_loop_step rec p x y cells s s1 best c Hset Hc Hback).
    rewrite choose_beats. cbn [score]. rewrite Hg.
    assert (incl cells (empty_cells s)) as Hincl'
      by (intros xy Hxy; apply Hincl; now right).
    destruct (beats p (g (x, y)) (score best)) eqn:Hb.
    + destruct (IH (mkResult x y (g (x, y))) Hincl') as (r & Hr & Hcases).
      exists r. split; [exact Hr|]. right.
      destruct Hcases as [[-> Hnone] | (l1 & l2 & -> & Hsc & Hbeat & Hl1 & Hl2)].
      * exists [], cells. cbn [row col score app] in *.
        repeat split; auto; try (intros ? []).
      * exists ((x, y) :: l1), l2. cbn [score] in Hbeat.
        repeat split; auto.
        -- exact (beats_trans p _ _ _ Hbeat Hb).
        -- intros xy [<- | Hxy]; [exact Hbeat|now apply Hl1].
    + destruct (IH best Hincl') as (r & Hr & Hcases).
      exists r. split; [exact Hr|].
      destruct Hcases as [[-> Hnone] | (l1 & l2 & -> & Hsc & Hbeat & Hl1 & Hl2)].
      * left. split; [reflexivity|]. intros xy [<- | Hxy]; [exact Hb|now apply Hnone].
      * right. exists ((x, y) :: l1), l2. repeat split; auto.
        intros xy [<- | Hxy]; [|now apply Hl1].
        exact (beats_over p _ _ _ Hbeat Hb).
Qed.

Lemma minimax_first_best_split (fuel : nat) (s : board_t) (d p : Z) :
  grid s -> p <> EMPTY -> game_over s = Ret false ->
  1 <= d <= Z.of_nat (count_empty s) -> (count_empty s <= fuel)%nat ->
  exists r l1 l2,
    minimax (S fuel) s d p = Ret (s, r) /\
    empty_cells s = l1 ++ (row r, col r) :: l2 /\
    child_score fuel s d p (row r, col r) = Ret (score r) /\
    (forall xy, In xy l1 ->
       exists v, child_score fuel s d p xy = Ret v /\ beats p (score r) v = true) /\
    (forall xy, In xy l2 ->
       exists v, child_score fuel s d p xy = Ret v /\ beats p v (score r) = false).
Proof.
  intros Hg Hp Hover Hd Hfuel.
  set (g := fun xy : Z * Z =>
              match child_score fuel s d p xy with Ret v => v | _ => NegInf end).
  assert (forall x y, In (x, y) (empty_cells s) ->
            exists s1 c, set_cell s x y p = Ret s1 /\
                         minimax fuel s1 (d - 1) (- p) = Ret (s1, c) /\
                         score c = g (x, y) /\ finite_score c /\
                         child_score fuel s d p (x, y) = Ret (score c)) as Hrec.
  { intros x y Hin.
    destruct (set_cell_place s x y p Hin) as (s1 & Hset & _ & Hg1 & Hcount).
    specialize (Hcount Hp).
    destruct (minimax_finite fuel s1 (d - 1) (- p)) as (c & Hc & Hfin & _);
      [auto|unfold EMPTY in Hp; lia|lia|lia|].
    exists s1, c.
    assert (child_score fuel s d p (x, y) = Ret (score c)) as Hcs.
    { unfold child_score. cbn [fst snd]. rewrite Hset. cbn [bind]. now rewrite Hc. }
    repeat split; auto. unfold g. now rewrite Hcs. }
  assert (forall xy, In xy (empty_cells s) ->
            child_score fuel s d p xy = Ret (g xy) /\ exists z, g xy = Fin z) as Hchild.
  { intros [x y] Hin. destruct (Hrec x y Hin) as (s1 & c & _ & _ & Hgc & Hfin & Hcs).
    rewrite <- Hgc. split; [exact Hcs|]. destruct Hfin as (z & Hz & _). eauto. }
  destruct (minimax_loop_first_best (fun s' => minimax fuel s' (d - 1) (- p)) p s g)
    with (cells := empty_cells s) (best := init_best p)
    as (r & Hr & Hcases); [|apply incl_refl|].
  { intros x y Hin. destruct (Hrec x y Hin) as (s1 & c & H1 & H2 & H3 & _). eauto. }
  assert (minimax (S fuel) s d p = Ret (s, r)) as Hrun.
  { rewrite minimax_unfold. destruct (Z.eqb_spec d 0) as [|_]; [lia|].
    rewrite Hover. exact Hr. }
  destruct Hcases as [[-> Hnone] | (l1 & l2 & Hsplit & Hsc & _ & Hl1 & Hl2)].
  - exfalso. destruct (empty_cells s) as [|xy cells] eqn:Hcells.
    + pose proof (length_empty_cells s) as Hlen. rewrite Hcells in Hlen.
      cbn in Hlen. lia.
    + assert (In xy (xy :: cells)) as Hin by now left.
      specialize (Hnone xy Hin). destruct (Hchild xy Hin) as (_ & z & Hz).
      rewrite Hz in Hnone. unfold beats, init_best in Hnone.
      destruct (p =? COMP); cbn in Hnone; discriminate.
  - exists r, l1, l2. split; [exact Hrun|]. split; [exact Hsplit|].
    assert (forall xy, In xy l1 \/ xy = (row r, col r) \/ In xy l2 ->
              In xy (empty_cells s)) as Hmem.
    { intros xy Hxy. rewrite Hsplit. apply in_or_app.
      destruct Hxy as [H|[->|H]]; [now left|right; now left|right; now right]. }
    split; [|split].
    + rewrite Hsc. apply Hchild. apply Hmem. auto.
    + intros xy Hxy. exists (g xy). split; [apply Hchild, Hmem; auto|now apply Hl1].
    + intros xy Hxy. exists (g xy). split; [apply Hchild, Hmem; auto|now apply Hl2].
Qed.

(** X6: the selection policy of [minimax].  On a three-by-three board that is
    not won, searched for a player mark with
    [1 <= depth <= number of empty cells], the returned move is an empty
    cell whose child search gave the returned score; that score strictly
    beats (is greater for COMP, smaller otherwise) the score of every empty
    cell listed before it in row-major order, and no empty cell listed after
    it beats it: ties go to the first candidate found. *)
Theorem minimax_first_best (fuel : nat) (s : board_t) (d p : Z) :
  grid s -> p <> EMPTY -> game_over s = Ret false ->
  1 <= d <= Z.of_nat (count_empty s) -> (count_empty s <= fuel)%nat ->
  exists r before after,
    minimax (S fuel) s d p = Ret (s, r) /\
    empty_cells s = before ++ (row r, col r) :: after /\
    ~ In (row r, col r) before /\ ~ In (row r, col r) after /\
    child_score fuel s d p (row r, col r) = Ret (score r) /\
    (forall xy, In xy before ->
       exists v, child_score fuel s d p xy = Ret v /\ beats p (score r) v = true) /\
    (forall xy, In xy after ->
       exists v, child_score fuel s d p xy = Ret v /\ beats p v (score r) = false).
Proof.
  intros Hg Hp Hover Hd Hfuel.
  destruct (minimax_first_best_split fuel s d p Hg Hp Hover Hd Hfuel)
    as (r & l1 & l2 & Hr & Hsplit & Hm & Hl1 & Hl2).
  exists r, l1, l2. repeat split; auto.
  - intros Hin. pose proof (cells_from_sorted s 0) as Hsorted.
    change (StronglySorted row_major (empty_cells s)) in Hsorted.
    rewrite Hsplit in Hsorted. apply StronglySorted_app in Hsorted.
    destruct Hsorted as (Hlt & _ & _).
    specialize (Hlt (row r, col r) (row r, col r)).
    unfold row_major in Hlt. cbn [fst snd] in Hlt.
    destruct Hlt as [Hlt | [_ Hlt]];
      [now apply list_elem_of_In|apply list_elem_of_In; now left|lia|lia].
  - intros Hin. pose proof (cells_from_sorted s 0) as Hsorted.
    change (StronglySorted row_major (empty_cells s)) in Hsorted.
    rewrite Hsplit in Hsorted. apply StronglySorted_app in Hsorted.
    destruct Hsorted as (_ & _ & Hs2). apply StronglySorted_cons in Hs2.
    destruct Hs2 as [Hall _]. rewrite Forall_forall in Hall.
    specialize (Hall (row r, col r)).
    unfold row_major in Hall. cbn [fst snd] in Hall.
    destruct Hall as [Hlt | [_ Hlt]]; [now apply list_elem_of_In|lia|lia].
Qed.

Lemma minimax_first_best_witness :
  exists r l1 l2,
    minimax 6 [[1; -1; 0]; [0; -1; 0]; [0; 0; 1]] 5 COMP =
      Ret ([[1; -1; 0]; [0; -1; 0]; [0; 0; 1]], r) /\
    empty_cells [[1; -1; 0]; [0; -1; 0]; [0; 0; 1]] = l1 ++ (row r, col r) :: l2.
Proof.
  destruct (minimax_first_best 5 [[1; -1; 0]; [0; -1; 0]; [0; 0; 1]] 5 COMP)
    as (r & l1 & l2 & Hr & Hs & _).
  - apply grid_intro.
  - discriminate.
  - reflexivity.
  - cbn. lia.
  - cbn. lia.
  - exists r, l1, l2. split; [exact Hr|exact Hs].
Defined.

(** ** The score is the value of the position *)

Lemma won_wins (s : board_t) (p : Z) : grid s -> wins s p = Ret (won s p).
Proof. intros Hg. unfold won. now destruct (wins_total s p Hg) as [[|] ->]. Qed.

Lemma payoff_evaluate (s : board_t) : grid s -> evaluate s = Ret (payoff s).
Proof.
  intros Hg. unfold evaluate, payoff.
  rewrite (won_wins s COMP Hg), (won_wins s HUMAN Hg). cbn [bind].
  destruct (won s COMP); [reflexivity|]. now destruct (won s HUMAN).
Qed.

Lemma game_over_won (s : board_t) :
  grid s -> game_over s = Ret (won s HUMAN || won s COMP).
Proof.
  intros Hg. unfold game_over.
  rewrite (won_wins s COMP Hg), (won_wins s HUMAN Hg). cbn [bind].
  now destruct (won s HUMAN).
Qed.

Lemma mark_set_cell (s s1 : board_t) (x y p : Z) :
  set_cell s x y p = Ret s1 -> mark s (x, y) p = s1.
Proof. intros H. unfold mark. cbn [fst snd]. now rewrite H. Qed.

Lemma foldr_max_in (v : Z) (vs : list Z) : In (foldr Z.max v vs) (v :: vs).
Proof.
  induction vs as [|w vs IH]; cbn [foldr]; [now left|].
  destruct (Z.max_spec w (foldr Z.max v vs)) as [[_ ->] | [_ ->]].
  - destruct IH as [<- | IH]; [now left|right; now right].
  - right. now left.
Qed.

Lemma foldr_max_ge (v : Z) (vs : list Z) (x : Z) :
  In x (v :: vs) -> x <= foldr Z.max v vs.
Proof.
  induction vs as [|w vs IH]; cbn [foldr].
  - intros [<- | []]. lia.
  - intros [<- | [<- | Hx]]; [specialize (IH (or_introl eq_refl))|
                             |specialize (IH (or_intror Hx))]; lia.
Qed.

Lemma foldr_min_in (v : Z) (vs : list Z) : In (foldr Z.min v vs) (v :: vs).
Proof.
  induction vs as [|w vs IH]; cbn [foldr]; [now left|].
  destruct (Z.min_spec w (foldr Z.min v vs)) as [[_ ->] | [_ ->]].
  - right. now left.
  - destruct IH as [<- | IH]; [now left|right; now right].
Qed.

Lemma foldr_min_le (v : Z) (vs : list Z) (x : Z) :
  In x (v :: vs) -> foldr Z.min v vs <= x.
Proof.
  induction vs as [|w vs IH]; cbn [foldr].
  - intros [<- | []]. lia.
  - intros [<- | [<- | Hx]]; [specialize (IH (or_introl eq_refl))|
                             |specialize (IH (or_intror Hx))]; lia.
Qed.

Lemma foldr_max_attained (v : Z) (vs : list Z) (m : Z) :
  In m (v :: vs) -> (forall x, In x (v :: vs) -> x <= m) -> foldr Z.max v vs = m.
Proof.
  intros Hin Hub. pose proof (foldr_max_ge v vs m Hin).
  pose proof (Hub _ (foldr_max_in v vs)). lia.
Qed.

Lemma foldr_min_attained (v : Z) (vs : list Z) (m : Z) :
  In m (v :: vs) -> (forall x, In x (v :: vs) -> m <= x) -> foldr Z.min v vs = m.
Proof.
  intros Hin Hlb. pose proof (foldr_min_le v vs m Hin).
  pose proof (Hlb _ (foldr_min_in v vs)). lia.
Qed.

Lemma minimax_value (fuel : nat) :
  forall (s : board_t) (p : Z),
    grid s -> p <> EMPTY -> (count_empty s < fuel)%nat ->
    exists r,
      minimax fuel s (Z.of_nat (count_empty s)) p = Ret (s, r) /\
      score r = Fin (game_value (count_empty s) s p) /\
      (count_empty s <> 0%nat -> game_over s = Ret false ->
       In (row r, col r) (empty_cells s) /\
       game_value (count_empty s - 1) (mark s (row r, col r) p) (- p) =
       game_value (count_empty s) s p).
Proof.
  induction fuel as [|fuel IH]; intros s p Hg Hp Hfuel; [lia|].
  destruct (count_empty s) as [|n] eqn:Hn.
  - rewrite minimax_unfold. cbn [Z.of_nat Z.eqb bind].
    rewrite (payoff_evaluate s Hg). cbn [bind]. eexists. split; [reflexivity|].
    split; [reflexivity|]. intros Hne. contradiction.
  - destruct (won s HUMAN || won s COMP) eqn:Hover.
    + rewrite minimax_unfold. destruct (Z.eqb_spec (Z.of_nat (S n)) 0) as [|_]; [lia|].
      rewrite (game_over_won s Hg), Hover. cbn [bind].
      rewrite (payoff_evaluate s Hg). cbn [bind]. eexists. split; [reflexivity|].
      cbn [game_value score]. rewrite Hover. split; [reflexivity|].
      intros _ Hno. discriminate.
    + assert (game_over s = Ret false) as Hgo by (now rewrite (game_over_won s Hg), Hover).
      set (gv := fun xy : Z * Z => game_value n (mark s xy p) (- p)).
      assert (forall xy, In xy (empty_cells s) ->
                child_score fuel s (Z.of_nat (S n)) p xy = Ret (Fin (gv xy))) as Hchild.
      { intros [x y] Hin.
        destruct (set_cell_place s x y p Hin) as (s1 & Hset & _ & Hg1 & Hcount).
        specialize (Hcount Hp). rewrite Hn in Hcount. injection Hcount as Hcount.
        destruct (IH s1 (- p)) as (c & Hc & Hsc & _);
          [auto|unfold EMPTY in *; lia|lia|].
        unfold child_score. cbn [fst snd]. rewrite Hset. cbn [bind].
        replace (Z.of_nat (S n) - 1) with (Z.of_nat (count_empty s1)) by lia.
        rewrite Hc. cbn [bind snd]. rewrite Hsc, Hcount. unfold gv.
        now rewrite (mark_set_cell s s1 x y p Hset). }
      destruct (minimax_first_best_split fuel s (Z.of_nat (S n)) p Hg Hp Hgo)
        as (r & l1 & l2 & Hr & Hsplit & Hm & Hl1 & Hl2); [lia|lia|].
      assert (In (row r, col r) (empty_cells s)) as Hin
        by (rewrite Hsplit; apply in_or_app; right; now left).
      rewrite (Hchild _ Hin) in Hm. injection Hm as Hm.
      assert (game_value (S n) s p = gv (row r, col r)) as Hval.
      { cbn [game_value]. rewrite Hover. fold gv.
        destruct (empty_cells s) as [|c cs] eqn:Hcells; [contradiction|].
        cbn [map].
        assert (In (gv (row r, col r)) (gv c :: map gv cs)) as Hmem
          by (change (gv c :: map gv cs) with (map gv (c :: cs)); now apply in_map).
        assert (forall xy, In xy (c :: cs) ->
                  xy = (row r, col r) \/
                  beats p (Fin (gv (row r, col r))) (Fin (gv xy)) = true \/
                  beats p (Fin (gv xy)) (Fin (gv (row r, col r))) = false) as Hcmp.
        { intros xy Hxy. pose proof Hxy as Hxy'. rewrite Hsplit in Hxy.
          apply in_app_or in Hxy. destruct Hxy as [H1 | [<- | H2]].
          - right. left. destruct (Hl1 xy H1) as (v & Hv & Hb).
            rewrite (Hchild xy Hxy') in Hv. injection Hv as <-. now rewrite Hm.
          - now left.
          - right. right. destruct (Hl2 xy H2) as (v & Hv & Hb).
            rewrite (Hchild xy Hxy') in Hv. injection Hv as <-. now rewrite Hm. }
        destruct (p =? COMP) eqn:Hcomp.
        - apply foldr_max_attained; [exact Hmem|].
          intros x Hx. change (gv c :: map gv cs) with (map gv (c :: cs)) in Hx.
          apply in_map_iff in Hx. destruct Hx as (xy & <- & Hxy).
          destruct (Hcmp xy Hxy) as [-> | [Hb | Hb]]; [lia| |];
            unfold beats, value_gtb in Hb; rewrite Hcomp in Hb; cbn [value_ltb] in Hb;
            [apply Z.ltb_lt in Hb|apply Z.ltb_ge in Hb]; lia.
        - apply foldr_min_attained; [exact Hmem|].
          intros x Hx. change (gv c :: map gv cs) with (map gv (c :: cs)) in Hx.
          apply in_map_iff in Hx. destruct Hx as (xy & <- & Hxy).
          destruct (Hcmp xy Hxy) as [-> | [Hb | Hb]]; [lia| |];
            unfold beats, value_gtb in Hb; rewrite Hcomp in Hb; cbn [value_ltb] in Hb;
            [apply Z.ltb_lt in Hb|apply Z.ltb_ge in Hb]; lia. }
      exists r. split; [exact Hr|]. split; [now rewrite <- Hm, Hval|].
      intros _ _. split; [exact Hin|].
      replace (S n - 1)%nat with n by lia. now rewrite Hval.
Qed.

(** X7: searched with [depth] equal to the number of empty cells, as
    [ai_turn] does, [minimax] returns the value of the position under optimal
    play by both sides, and when the game is not over the returned move is an
    empty cell that leads to a position of that same value. *)
Theorem minimax_game_value (fuel : nat) (s : board_t) (p : Z) :
  grid s -> p <> EMPTY -> (count_empty s < fuel)%nat ->
  exists r,
    minimax fuel s (Z.of_nat (count_empty s)) p = Ret (s, r) /\
    score r = Fin (game_value (count_empty s) s p) /\
    (count_empty s <> 0%nat -> game_over s = Ret false ->
     exists s', set_move s (row r) (col r) p = Ret (s', true) /\
                game_value (count_empty s') s' (- p) = game_value (count_empty s) s p).
Proof.
  intros Hg Hp Hfuel.
  destruct (minimax_value fuel s p Hg Hp Hfuel) as (r & Hr & Hs & Hmove).
  exists r. split; [exact Hr|]. split; [exact Hs|].
  intros Hn Hover. destruct (Hmove Hn Hover) as (Hin & Hval).
  destruct (set_cell_place s (row r) (col r) p Hin) as (s' & Hset & _ & _ & Hcount).
  exists s'. split.
  - unfold set_move. rewrite (proj2 (valid_move_spec s (row r) (col r)) Hin).
    now rewrite Hset.
  - rewrite (mark_set_cell s s' _ _ p Hset) in Hval. specialize (Hcount Hp).
    replace (count_empty s') with (count_empty s - 1)%nat by lia. exact Hval.
Qed.

Lemma minimax_game_value_witness :
  exists r,
    minimax 6 [[1; -1; 0]; [0; -1; 0]; [0; 0; 1]] 5 COMP =
      Ret ([[1; -1; 0]; [0; -1; 0]; [0; 0; 1]], r) /\
    score r = Fin (game_value 5 [[1; -1; 0]; [0; -1; 0]; [0; 0; 1]] COMP).
Proof.
  destruct (minimax_game_value 6 [[1; -1; 0]; [0; -1; 0]; [0; 0; 1]] COMP)
    as (r & Hr & Hs & _).
  - apply grid_intro.
  - discriminate.
  - cbn. lia.
  - exists r. split; [exact Hr|exact Hs].
Defined.

(** * The turn controller *)

(** ** Concrete runs *)

Example ai_turn_example :
  ai_turn "X" "O" (fun _ => 0) 10
    (mkWorld [[1; -1; 1]; [1; -1; -1]; [-1; 0; 1]] [] 0 []) =
  Go (mkWorld [[1; -1; 1]; [1; -1; -1]; [-1; 1; 1]] [] 0
        [ Clear; Print "Computer turn [X]
";
          Print "
---------------
"; Print "| X |"; Print "| O |"; Print "| X |"; Print "
---------------
"; Print "| X |"; Print "| O |"; Print "| O |"; Print "
---------------
"; Print "| O |"; Print "|   |"; Print "| X |"; Print "
---------------
"; Sleep 1 ]).
Proof. reflexivity. Qed.

Example human_turn_example :
  human_turn "X" "O"
    (mkWorld [[1; 0; 0]; [0; -1; 0]; [0; 0; 0]] [None; Some 12; Some 1; Some 9; Some 2] 0 []) =
  Go (mkWorld [[1; 0; 0]; [0; -1; 0]; [0; 0; -1]] [Some 2] 0
        [ Clear; Print "Human turn [O]
";
          Print "
---------------
"; Print "| X |"; Print "|   |"; Print "|   |"; Print "
---------------
"; Print "|   |"; Print "| O |"; Print "|   |"; Print "
---------------
"; Print "|   |"; Print "|   |"; Print "|   |"; Print "
---------------
";
          Prompt "Use numpad (1..9): "; Print "Bad choice
";
          Prompt "Use numpad (1..9): "; Print "Bad choice
";
          Prompt "Use numpad (1..9): "; Print "Bad move
";
          Prompt "Use numpad (1..9): " ]).
Proof. reflexivity. Qed.

(** ** What a controller step leaves alone *)

Lemma quiet_refl (w : world) : quiet w w.
Proof. repeat split. exists []. now rewrite app_nil_r. Qed.

Lemma quiet_trans (w1 w2 w3 : world) : quiet w1 w2 -> quiet w2 w3 -> quiet w1 w3.
Proof.
  intros (Hb & Hs & Hd & e1 & He1) (Hb' & Hs' & Hd' & e2 & He2).
  repeat split; try congruence. exists (e1 ++ e2). rewrite He2, He1. now rewrite app_assoc.
Qed.

Lemma quiet_emit (e : event) (w : world) : quiet w (emit e w).
Proof. repeat split. now exists [e]. Qed.

Lemma dict_get_chars (c h : string) (v : Z) :
  (v = -1 \/ v = 0 \/ v = 1) <-> exists sym, dict_get (chars c h) v = Some sym.
Proof.
  unfold chars. cbn [dict_get]. split.
  - intros [-> | [-> | ->]]; cbn; eauto.
  - intros (sym & H).
    destruct (Z.eqb_spec v (-1)); [auto|].
    destruct (Z.eqb_spec v 1); [auto|].
    destruct (Z.eqb_spec v 0); [auto|discriminate].
Qed.

Lemma render_row_cases (c h : string) (r : list Z) :
  forall w : world,
    (Forall (fun v => v = -1 \/ v = 0 \/ v = 1) r /\
     exists w', render_row c h r w = Go w' /\ quiet w w') \/
    (~ Forall (fun v => v = -1 \/ v = 0 \/ v = 1) r /\
     exists w', render_row c h r w = Stop RaisedKeyError w' /\ quiet w w').
Proof.
  induction r as [|v r IH]; intros w; cbn [render_row].
  - left. split; [constructor|]. exists w. split; [reflexivity|apply quiet_refl].
  - destruct (dict_get (chars c h) v) as [sym|] eqn:E.
    + assert (v = -1 \/ v = 0 \/ v = 1) as Hv by (apply (dict_get_chars c h); eauto).
      destruct (IH (emit (Print ("| " ++ sym ++ " |")%string) w))
        as [(Hr & w' & Hw & Hq) | (Hr & w' & Hw & Hq)].
      * left. split; [now constructor|]. exists w'. split; [exact Hw|].
        eapply quiet_trans; [apply quiet_emit|exact Hq].
      * right. split; [intros HF; apply Hr; now inversion HF|].
        exists w'. split; [exact Hw|].
        eapply quiet_trans; [apply quiet_emit|exact Hq].
    + right. split.
      * intros HF. inversion HF as [|? ? Hv _]. subst.
        apply (dict_get_chars c h) in Hv. destruct Hv as (sym & Hs). congruence.
      * exists w. split; [reflexivity|apply quiet_refl].
Qed.

Lemma render_rows_cases (c h : string) (s : board_t) :
  forall w : world,
    (marks s /\ exists w', render_rows c h s w = Go w' /\ quiet w w') \/
    (~ marks s /\ exists w', render_rows c h s w = Stop RaisedKeyError w' /\ quiet w w').
Proof.
  induction s as [|r s IH]; intros w; cbn [render_rows].
  - left. split; [constructor|]. exists w. split; [reflexivity|apply quiet_refl].
  - destruct (render_row_cases c h r w) as [(Hr & w1 & Hw1 & Hq1) | (Hr & w1 & Hw1 & Hq1)];
      rewrite Hw1; cbn [run_bind].
    + destruct (IH (emit (Print (newline ++ str_line ++ newline)%string) w1))
        as [(Hs & w' & Hw & Hq) | (Hs & w' & Hw & Hq)].
      * left. split; [now constructor|]. exists w'. split; [exact Hw|].
        eapply quiet_trans; [exact Hq1|].
        eapply quiet_trans; [apply quiet_emit|exact Hq].
      * right. split; [intros HF; apply Hs; now inversion HF|].
        exists w'. split; [exact Hw|].
        eapply quiet_trans; [exact Hq1|].
        eapply quiet_trans; [apply quiet_emit|exact Hq].
    + right. split; [intros HF; apply Hr; now inversion HF|]. eauto.
Qed.

(** X8: [render] returns exactly on the boards whose cells are all -1, 0 or
    +1, the keys of [chars], and raises [KeyError] on every other board; in
    both cases it only prints: the board, the pending input and the random
    draws are as before. *)
Theorem render_key_error (c h : string) (s : board_t) (w : world) :
  (marks s /\ exists w', render c h s w = Go w' /\ quiet w w') \/
  (~ marks s /\ exists w', render c h s w = Stop RaisedKeyError w' /\ quiet w w').
Proof.
  unfold render.
  destruct (render_rows_cases c h s (emit (Print (newline ++ str_line ++ newline)%string) w))
    as [(Hs & w' & Hw & Hq) | (Hs & w' & Hw & Hq)]; [left|right];
    (split; [exact Hs|]); exists w'; (split; [exact Hw|]);
    (eapply quiet_trans; [apply quiet_emit|exact Hq]).
Qed.

Lemma render_marks (c h : string) (s : board_t) (w : world) :
  marks s -> exists w', render c h s w = Go w' /\ quiet w w'.
Proof.
  intros Hm. unfold render.
  destruct (render_rows_cases c h s (emit (Print (newline ++ str_line ++ newline)%string) w))
    as [(_ & w' & Hw & Hq) | (Hn & _)]; [|contradiction].
  exists w'. split; [exact Hw|]. eapply quiet_trans; [apply quiet_emit|exact Hq].
Qed.

(** ** One turn *)

Lemma turn_guard_skip (s : board_t) (w : world) :
  count_empty s = 0%nat \/ game_over s = Ret true ->
  call w (if Z.of_nat (length (empty_cells s)) =? 0 then Ret true else game_over s) =
  Go true.
Proof.
  rewrite length_empty_cells. intros [-> | Hover]; [reflexivity|].
  rewrite Hover. now destruct (_ =? 0).
Qed.

Lemma turn_guard_play (s : board_t) (w : world) :
  count_empty s <> 0%nat -> game_over s = Ret false ->
  call w (if Z.of_nat (length (empty_cells s)) =? 0 then Ret true else game_over s) =
  Go false.
Proof.
  rewrite length_empty_cells. intros Hn Hover.
  destruct (Z.eqb_spec (Z.of_nat (count_empty s)) 0); [lia|]. now rewrite Hover.
Qed.

(** X9: when the board has no empty cell, or a side already has a line,
    [ai_turn] and [human_turn] return at once: no move, no output, no input
    read, no random draw. *)
Theorem turn_skipped (c h : string) (rnd : nat -> Z) (budget : nat) (w : world) :
  count_empty (brd w) = 0%nat \/ game_over (brd w) = Ret true ->
  ai_turn c h rnd budget w = Go w /\ human_turn c h w = Go w.
Proof.
  intros Hend. unfold ai_turn, human_turn.
  rewrite (turn_guard_skip (brd w) w Hend). split; reflexivity.
Qed.

Lemma turn_skipped_witness :
  human_turn "X" "O" (mkWorld [[1; 1; 1]; [-1; -1; 0]; [0; 0; 0]] [Some 6] 0 []) =
  Go (mkWorld [[1; 1; 1]; [-1; -1; 0]; [0; 0; 0]] [Some 6] 0 []).
Proof.
  apply (turn_skipped "X" "O" (fun _ => 0) 10
           (mkWorld [[1; 1; 1]; [-1; -1; 0]; [0; 0; 0]] [Some 6] 0 [])).
  right. reflexivity.
Defined.

Ltac marks_of_literal :=
  unfold marks; repeat first [apply Forall_nil_2 | apply Forall_cons_2]; lia.


Lemma set_move_valid (s : board_t) (x y p : Z) :
  In (x, y) (empty_cells s) ->
  exists s1, set_move s x y p = Ret (s1, true) /\ set_cell s x y p = Ret s1.
Proof.
  intros Hin. destruct (set_cell_empty s x y p Hin) as (r & _ & _ & Hset).
  eexists. split; [|exact Hset].
  unfold set_move. rewrite (proj2 (valid_move_spec s x y) Hin). now rewrite Hset.
Qed.

Lemma ai_turn_move (c h : string) (rnd : nat -> Z) (budget : nat) (w : world) :
  grid (brd w) -> marks (brd w) -> game_over (brd w) = Ret false ->
  (1 <= count_empty (brd w) <= 8)%nat -> (count_empty (brd w) < budget)%nat ->
  exists w' r,
    ai_turn c h rnd budget w = Go w' /\
    minimax budget (brd w) (Z.of_nat (count_empty (brd w))) COMP = Ret (brd w, r) /\
    set_move (brd w) (row r) (col r) COMP = Ret (brd w', true) /\
    stdin w' = stdin w /\ draws w' = draws w /\
    position_value (brd w') HUMAN = position_value (brd w) COMP.
Proof.
  intros Hg Hm Hover Hn Hb. unfold ai_turn.
  rewrite (turn_guard_play (brd w) w) by (auto; lia). cbn [run_bind].
  destruct (render_marks c h (brd w)
              (emit (Print ("Computer turn [" ++ c ++ "]" ++ newline)%string)
                    (emit Clear w))) as (w1 & Hw1 & Hb1 & Hs1 & Hd1 & _);
    [exact Hm|].
  cbn [emit brd] in Hw1. cbn [emit brd stdin draws] in Hb1, Hs1, Hd1.
  cbn [emit brd]. rewrite Hw1. cbn [run_bind].
  rewrite length_empty_cells.
  destruct (Z.eqb_spec (Z.of_nat (count_empty (brd w))) 9) as [|_]; [lia|].
  destruct (minimax_value budget (brd w) COMP Hg) as (r & Hr & _ & Hmove);
    [discriminate|exact Hb|].
  destruct Hmove as (Hin & Hval); [lia|exact Hover|].
  rewrite Hb1, Hr. cbn [call run_bind fst snd with_board brd].
  destruct (set_move_valid (brd w) (row r) (col r) COMP Hin) as (s1 & Hmv & Hset).
  rewrite Hmv. cbn [call run_bind fst].
  eexists _, r. split; [reflexivity|].
  cbn [emit with_board brd stdin draws]. repeat split; auto.
  destruct (set_cell_place (brd w) (row r) (col r) COMP Hin)
    as (s1' & Hset' & _ & _ & Hcount).
  rewrite Hset in Hset'. injection Hset' as <-.
  unfold position_value. rewrite (mark_set_cell _ _ _ _ _ Hset) in Hval.
  replace (count_empty s1) with (count_empty (brd w) - 1)%nat
    by (specialize (Hcount ltac:(discriminate)); lia).
  exact Hval.
Qed.

(** X10: on a three-by-three board of marks that is not won and has between
    one and eight empty cells, [ai_turn] plays one COMP mark through
    [set_move] on a cell that [minimax] chose, and the position it leaves has
    the value of the position it found: the move is optimal.  It reads no
    input and draws no random value. *)
Theorem ai_turn_plays_best (c h : string) (rnd : nat -> Z) (budget : nat) (w : world) :
  grid (brd w) -> marks (brd w) -> game_over (brd w) = Ret false ->
  (1 <= count_empty (brd w) <= 8)%nat -> (count_empty (brd w) < budget)%nat ->
  exists w' x y,
    ai_turn c h rnd budget w = Go w' /\
    (exists v, minimax budget (brd w) (Z.of_nat (count_empty (brd w))) COMP =
               Ret (brd w, mkResult x y v)) /\
    set_move (brd w) x y COMP = Ret (brd w', true) /\
    stdin w' = stdin w /\ draws w' = draws w /\
    position_value (brd w') HUMAN = position_value (brd w) COMP.
Proof.
  intros Hg Hm Hover Hn Hb.
  destruct (ai_turn_move c h rnd budget w Hg Hm Hover Hn Hb)
    as (w' & [x y v] & Hrun & Hr & Hmv & Hs & Hd & Hval).
  exists w', x, y. cbn [row col] in Hmv. repeat split; eauto.
Qed.

Lemma ai_turn_plays_best_witness :
  exists w' x y,
    ai_turn "X" "O" (fun _ => 0) 10
      (mkWorld [[1; -1; 1]; [1; -1; -1]; [-1; 0; 1]] [] 0 []) = Go w' /\
    set_move [[1; -1; 1]; [1; -1; -1]; [-1; 0; 1]] x y COMP = Ret (brd w', true).
Proof.
  destruct (ai_turn_plays_best "X" "O" (fun _ => 0) 10
              (mkWorld [[1; -1; 1]; [1; -1; -1]; [-1; 0; 1]] [] 0 []))
    as (w' & x & y & Hw & _ & Hs & _).
  - apply grid_intro.
  - marks_of_literal.
  - reflexivity.
  - cbn. lia.
  - cbn. lia.
  - exists w', x, y. split; [exact Hw|exact Hs].
Defined.

Lemma grid_all_empty (s : board_t) :
  grid s -> count_empty s = 9%nat -> s = board.
Proof.
  intros Hg Hn. grid_cases Hg. cbn in Hn. unfold board.
  destruct (Z.eqb_spec a 0), (Z.eqb_spec b 0), (Z.eqb_spec c 0),
           (Z.eqb_spec d 0), (Z.eqb_spec e 0), (Z.eqb_spec f 0),
           (Z.eqb_spec g 0), (Z.eqb_spec h 0), (Z.eqb_spec i 0);
    try lia; now subst.
Qed.

Lemma ai_turn_first (c h : string) (rnd : nat -> Z) (budget : nat) (w : world) :
  grid (brd w) -> count_empty (brd w) = 9%nat ->
  In (rnd (draws w)) [0; 1; 2] -> In (rnd (S (draws w))) [0; 1; 2] ->
  exists w',
    ai_turn c h rnd budget w = Go w' /\
    set_move (brd w) (rnd (draws w)) (rnd (S (draws w))) COMP = Ret (brd w', true) /\
    stdin w' = stdin w /\ draws w' = S (S (draws w)).
Proof.
  intros Hg Hn Hx Hy. pose proof (grid_all_empty (brd w) Hg Hn) as Hb.
  unfold ai_turn. rewrite (turn_guard_play (brd w) w) by (rewrite ?Hb; auto; lia).
  cbn [run_bind].
  destruct (render_marks c h (brd w)
              (emit (Print ("Computer turn [" ++ c ++ "]" ++ newline)%string)
                    (emit Clear w))) as (w1 & Hw1 & Hb1 & Hs1 & Hd1 & _);
    [rewrite Hb; unfold board; marks_of_literal|].
  cbn [emit brd] in Hw1. cbn [emit brd stdin draws] in Hb1, Hs1, Hd1.
  cbn [emit brd]. rewrite Hw1. cbn [run_bind].
  rewrite length_empty_cells, Hn. change (Z.of_nat 9 =? 9) with true.
  cbn [run_bind brd stdin draws]. rewrite Hb1, Hd1, Hs1.
  assert (exists s1, set_move (brd w) (rnd (draws w)) (rnd (S (draws w))) COMP =
                     Ret (s1, true)) as (s1 & Hmv).
  { rewrite Hb. cbn [In] in Hx, Hy.
    destruct Hx as [<- | [<- | [<- | []]]]; destruct Hy as [<- | [<- | [<- | []]]];
      eexists; reflexivity. }
  rewrite Hmv. cbn [call run_bind fst]. eexists. split; [reflexivity|].
  cbn [emit with_board brd stdin draws]. auto.
Qed.

(** X11: on the three-by-three board with all nine cells empty, [ai_turn]
    does not search: it draws two values from [choice([0, 1, 2])] and plays
    COMP on that row and column, which [set_move] accepts whatever the two
    values are. *)
Theorem ai_turn_opening (c h : string) (rnd : nat -> Z) (budget : nat) (w : world) :
  grid (brd w) -> count_empty (brd w) = 9%nat ->
  In (rnd (draws w)) [0; 1; 2] -> In (rnd (S (draws w))) [0; 1; 2] ->
  exists w',
    ai_turn c h rnd budget w = Go w' /\
    set_move (brd w) (rnd (draws w)) (rnd (S (draws w))) COMP = Ret (brd w', true) /\
    cell (brd w') (rnd (draws w)) (rnd (S (draws w))) = Ret COMP /\
    count_empty (brd w') = 8%nat /\
    stdin w' = stdin w /\ draws w' = S (S (draws w)).
Proof.
  intros Hg Hn Hx Hy.
  destruct (ai_turn_first c h rnd budget w Hg Hn Hx Hy) as (w' & Hrun & Hmv & Hs & Hd).
  exists w'. repeat split; auto.
  - pose proof Hmv as Hmv'. apply set_move_true_inv in Hmv'. destruct Hmv' as [Hin Hset].
    destruct (set_cell_empty (brd w) _ _ COMP Hin) as (r & Hr & Hc & Hset').
    rewrite Hset in Hset'. injection Hset' as ->.
    apply in_empty_cells in Hin. destruct Hin as (H0x & H0y & _).
    apply (cell_front _ _ _ (<[Z.to_nat (rnd (S (draws w))) := COMP]> r));
      auto; apply list_lookup_insert_eq; eapply lookup_lt_Some; eauto.
  - pose proof Hmv as Hmv'. apply set_move_true_inv in Hmv'. destruct Hmv' as [Hin Hset].
    destruct (set_cell_place (brd w) _ _ COMP Hin) as (s1 & Hset1 & _ & _ & Hcount).
    rewrite Hset in Hset1. injection Hset1 as <-.
    specialize (Hcount ltac:(discriminate)). lia.
Qed.

Lemma ai_turn_opening_witness :
  exists w',
    ai_turn "X" "O" (fun k => Z.of_nat k + 1) 10 (mkWorld board [] 0 []) = Go w' /\
    set_move board 1 2 COMP = Ret (brd w', true).
Proof.
  destruct (ai_turn_opening "X" "O" (fun k => Z.of_nat k + 1) 10 (mkWorld board [] 0 []))
    as (w' & Hw & Hs & _).
  - apply grid_intro.
  - reflexivity.
  - cbn. auto.
  - cbn. auto.
  - exists w'. split; [exact Hw|exact Hs].
Defined.

(** ** The human's input *)

Lemma dict_get_moves (n : Z) :
  dict_get moves n = if (1 <=? n) && (n <=? 9) then Some (key_cell n) else None.
Proof.
  destruct (Z.leb_spec 1 n); destruct (Z.leb_spec n 9); cbn [andb].
  - assert (n = 1 \/ n = 2 \/ n = 3 \/ n = 4 \/ n = 5 \/ n = 6 \/ n = 7 \/ n = 8 \/ n = 9)
      as Hn by lia.
    repeat (destruct Hn as [-> | Hn]; [reflexivity|]). now subst.
  - unfold moves. cbn [dict_get].
    repeat match goal with
           | |- context [n =? ?k] => destruct (Z.eqb_spec n k); [lia|]
           end.
    reflexivity.
  - unfold moves. cbn [dict_get].
    repeat match goal with
           | |- context [n =? ?k] => destruct (Z.eqb_spec n k); [lia|]
           end.
    reflexivity.
  - lia.
Qed.

Lemma human_loop_unfold (inputs : list (option Z)) (move : Z) (w : world) :
  move < 1 \/ 9 < move ->
  human_loop inputs move w =
  let w := emit (Prompt "Use numpad (1..9): ") w in
  match inputs with
  | [] =>
      Stop Exited (emit (Print ("Bye" ++ newline)%string)
                        (mkWorld (brd w) [] (draws w) (trace w)))
  | None :: rest =>
      human_loop rest move
        (emit (Print ("Bad choice" ++ newline)%string)
              (mkWorld (brd w) rest (draws w) (trace w)))
  | Some n :: rest =>
      let w := mkWorld (brd w) rest (draws w) (trace w) in
      match dict_get moves n with
      | None => human_loop rest n (emit (Print ("Bad choice" ++ newline)%string) w)
      | Some coord =>
          bo <~ call w (set_move (brd w) coord.1 coord.2 HUMAN) ;;
          let w := with_board bo.1 w in
          if bo.2 : bool then human_loop rest n w
          else human_loop rest (-1) (emit (Print ("Bad move" ++ newline)%string) w)
      end
  end.
Proof.
  intros Hm.
  assert ((move <? 1) || (9 <? move) = true) as Hc.
  { apply orb_true_iff. destruct Hm; [left; apply Z.ltb_lt|right; apply Z.ltb_lt]; lia. }
  destruct inputs as [|[n|] rest]; cbn [human_loop]; now rewrite Hc.
Qed.

Lemma human_loop_done (inputs : list (option Z)) (move : Z) (w : world) :
  1 <= move <= 9 -> human_loop inputs move w = Go w.
Proof.
  intros Hm.
  assert ((move <? 1) || (9 <? move) = false) as Hc.
  { apply orb_false_iff. split; apply Z.ltb_ge; lia. }
  destruct inputs as [|[n|] rest]; cbn [human_loop]; now rewrite Hc.
Qed.

(** Rejected lines are consumed one by one and leave the board alone. *)
Lemma human_loop_rejected (bad : list (option Z)) :
  forall (rest : list (option Z)) (move : Z) (w : world),
    move < 1 \/ 9 < move ->
    Forall (rejected (brd w)) bad ->
    stdin w = bad ++ rest ->
    exists move' w1,
      human_loop (bad ++ rest) move w = human_loop rest move' w1 /\
      (move' < 1 \/ 9 < move') /\
      brd w1 = brd w /\ draws w1 = draws w /\ stdin w1 = rest.
Proof.
  induction bad as [|t bad IH]; intros rest move w Hm Hbad Hin.
  - exists move, w. repeat split; auto.
  - apply Forall_cons in Hbad. destruct Hbad as [Ht Hbad].
    cbn [app]. rewrite (human_loop_unfold _ move w Hm). cbn zeta.
    destruct t as [n|].
    + rewrite dict_get_moves. cbn [rejected] in Ht.
      destruct ((1 <=? n) && (n <=? 9)) eqn:Hn.
      * apply andb_true_iff in Hn. destruct Hn as [H1 H9].
        apply Z.leb_le in H1, H9. destruct Ht as [Ht | [Ht | Ht]]; [lia|lia|].
        cbn [emit brd draws trace stdin]. unfold set_move. rewrite Ht.
        cbn [call run_bind fst snd with_board brd stdin draws trace].
        match goal with
        | |- context [human_loop (bad ++ rest) (-1) ?w0] =>
            destruct (IH rest (-1) w0) as (m' & w1 & Hl & Hm' & Hb' & Hd' & Hs');
              [lia|exact Hbad|reflexivity|]
        end.
        exists m', w1. rewrite Hl. repeat split; auto.
      * apply andb_false_iff in Hn.
        match goal with
        | |- context [human_loop (bad ++ rest) n ?w0] =>
            destruct (IH rest n w0) as (m' & w1 & Hl & Hm' & Hb' & Hd' & Hs');
              [destruct Hn as [Hn | Hn]; [left; apply Z.leb_gt in Hn|
                                         right; apply Z.leb_gt in Hn]; lia
              |exact Hbad|reflexivity|]
        end.
        exists m', w1. rewrite Hl. repeat split; auto.
    + match goal with
      | |- context [human_loop (bad ++ rest) move ?w0] =>
          destruct (IH rest move w0) as (m' & w1 & Hl & Hm' & Hb' & Hd' & Hs');
            [exact Hm|exact Hbad|reflexivity|]
      end.
      exists m', w1. rewrite Hl. repeat split; auto.
Qed.

Lemma human_turn_unfold (c h : string) (w : world) :
  marks (brd w) -> count_empty (brd w) <> 0%nat -> game_over (brd w) = Ret false ->
  exists w1, human_turn c h w = human_loop (stdin w) (-1) w1 /\ quiet w w1.
Proof.
  intros Hm Hn Hover. unfold human_turn.
  rewrite (turn_guard_play (brd w) w Hn Hover). cbn [run_bind].
  destruct (render_marks c h (brd w)
              (emit (Print ("Human turn [" ++ h ++ "]" ++ newline)%string)
                    (emit Clear w))) as (w1 & Hw1 & Hq); [exact Hm|].
  cbn [emit brd] in Hw1. cbn [emit brd]. rewrite Hw1. cbn [run_bind].
  exists w1. destruct Hq as (Hb & Hs & Hd & evs & He).
  cbn [emit brd stdin draws trace] in *. rewrite Hs. split; [reflexivity|].
  repeat split; auto. exists ([Clear; Print ("Human turn [" ++ h ++ "]" ++ newline)%string] ++ evs).
  rewrite He. now rewrite <- !app_assoc.
Qed.

(** X12: [human_turn] on a board of marks that is not won and has an empty
    cell.  It skips every input line that is not an integer, is outside
    1..9, or names a cell that is not free, leaving the board alone.  The
    first other line, a key [n] in 1..9, is played through [set_move] as a
    HUMAN mark on row [(n-1) / 3], column [(n-1) mod 3], and the lines after it
    stay unread.  If the input ends first, the turn ends the program with
    [exit()] and the board unchanged. *)
Theorem human_turn_reads (c h : string) (w : world) (bad : list (option Z)) :
  marks (brd w) -> count_empty (brd w) <> 0%nat -> game_over (brd w) = Ret false ->
  Forall (rejected (brd w)) bad ->
  (stdin w = bad ->
   exists w', human_turn c h w = Stop Exited w' /\ brd w' = brd w) /\
  (forall (n : Z) (rest : list (option Z)),
     stdin w = bad ++ Some n :: rest -> 1 <= n <= 9 ->
     valid_move (brd w) (key_cell n).1 (key_cell n).2 = true ->
     exists w',
       human_turn c h w = Go w' /\
       set_move (brd w) ((n - 1) / 3) ((n - 1) mod 3) HUMAN = Ret (brd w', true) /\
       stdin w' = rest /\ draws w' = draws w).
Proof.
  intros Hm Hn Hover Hbad.
  destruct (human_turn_unfold c h w Hm Hn Hover) as (w1 & Hrun & Hb1 & Hs1 & Hd1 & _).
  rewrite Hrun. rewrite <- Hb1 in Hbad. split.
  - intros Hin. rewrite Hin.
    destruct (human_loop_rejected bad [] (-1) w1) as (m' & w2 & Hl & Hm' & Hb2 & _);
      [lia|exact Hbad|now rewrite Hs1, app_nil_r|].
    rewrite app_nil_r in Hl. rewrite Hl, (human_loop_unfold [] m' w2 Hm'). cbn zeta.
    eexists. split; [reflexivity|]. cbn [emit brd]. congruence.
  - intros n rest Hin H19 Hv. rewrite Hin.
    destruct (human_loop_rejected bad (Some n :: rest) (-1) w1)
      as (m' & w2 & Hl & Hm' & Hb2 & Hd2 & _);
      [lia|exact Hbad|congruence|].
    rewrite Hl, (human_loop_unfold _ m' w2 Hm'). cbn zeta.
    rewrite dict_get_moves.
    replace ((1 <=? n) && (n <=? 9)) with true
      by (symmetry; apply andb_true_iff; split; apply Z.leb_le; lia).
    cbn [emit brd draws trace stdin]. rewrite Hb2, Hb1.
    apply valid_move_spec in Hv.
    destruct (set_move_valid (brd w) _ _ HUMAN Hv) as (s1 & Hmv & _).
    rewrite Hmv. cbn [call run_bind fst snd with_board brd stdin draws trace].
    rewrite human_loop_done by exact H19.
    eexists. split; [reflexivity|]. cbn [emit with_board brd stdin draws trace].
    split; [exact Hmv|]. split; [reflexivity|]. now rewrite Hd2, Hd1.
Qed.

Lemma human_turn_reads_witness :
  exists w',
    human_turn "X" "O"
      (mkWorld [[1; 0; 0]; [0; -1; 0]; [0; 0; 0]] [None; Some 12; Some 1; Some 9; Some 2] 0 [])
    = Go w' /\
    set_move [[1; 0; 0]; [0; -1; 0]; [0; 0; 0]] ((9 - 1) / 3) ((9 - 1) mod 3) HUMAN =
      Ret (brd w', true) /\
    stdin w' = [Some 2] /\ draws w' = 0%nat.
Proof.
  apply (human_turn_reads "X" "O"
           (mkWorld [[1; 0; 0]; [0; -1; 0]; [0; 0; 0]]
                    [None; Some 12; Some 1; Some 9; Some 2] 0 [])
           [None; Some 12; Some 1]).
  - cbn [brd]. marks_of_literal.
  - cbn. lia.
  - reflexivity.
  - repeat first [apply Forall_nil_2 | apply Forall_cons_2]; cbn [rejected brd].
    + exact I.
    + right. left. lia.
    + right. right. reflexivity.
  - reflexivity.
  - lia.
  - reflexivity.
Defined.


(** ** The computer is never beaten *)


















